(** * On-chip SRAM allocation driver (drivers/misc/sram.c)

    A shallow embedding of the reserved-block carve-out of the generic SRAM
    driver: the comparison callback [sram_reserve_cmp], the two loops of
    [sram_reserve_regions], [sram_probe] and [sram_remove], with the C
    integer types written out as [Z] and their wrap-around made explicit. *)

From Stdlib Require Import ZArith List Bool Lia Permutation Sorted.
Import ListNotations.
Local Open Scope Z_scope.

(** ** Machine integers *)

Module Int.

(** Width of a platform-dependent integer type. *)
Inductive width := W32 | W64.

Definition bits (w : width) : Z :=
  match w with W32 => 32 | W64 => 64 end.

Definition modulus (w : width) : Z := 2 ^ bits w.

(** Conversion to an unsigned type of width [w]. *)
Definition wrap (w : width) (x : Z) : Z := x mod modulus w.

(** Conversion to [u32]. *)
Definition u32 (x : Z) : Z := x mod 2 ^ 32.

(** Conversion of an out-of-range value to [int] (two's complement). *)
Definition s32 (x : Z) : Z :=
  let y := x mod 2 ^ 32 in
  if y <? 2 ^ 31 then y else y - 2 ^ 32.

End Int.

Import Int.

(** The integer widths that the headers, which are not among the sources,
    fix per configuration: [unsigned long] and [resource_size_t] (that is
    [phys_addr_t]).  [u32] and [int] are 32 bits everywhere. *)
Record platform := {
  ulong_w : width;
  phys_w  : width
}.

Definition ENOMEM : Z := 12.
Definition EBUSY  : Z := 16.
Definition EINVAL : Z := 22.

(** ** Data *)

(** Modelled from the spec: [struct resource] of linux/ioport.h, the
    extent of a region or of a reservation given by its first and its last
    physical address. *)
Record resource := {
  res_start : Z;
  res_end   : Z
}.

(** Modelled from the spec: [resource_size] of linux/ioport.h, the number
    of addresses from [res_start] to [res_end], both included, computed in
    [resource_size_t]. *)
Definition resource_size (P : platform) (r : resource) : Z :=
  wrap (phys_w P) (res_end r - res_start r + 1).

(** [struct sram_reserve] without its list linkage: two [u32] fields. *)
Record sram_reserve := {
  start : Z;
  size  : Z
}.

(** [sram_reserve_cmp]: the [u32] difference of the starts, returned as [int]. *)
Definition sram_reserve_cmp (ra rb : sram_reserve) : Z :=
  s32 (u32 (start ra - start rb)).

(** ** list_sort *)

Section ListSort.

Context {A : Type}.
Variable cmp : A -> A -> Z.

(** Modelled from the spec: the merge step of [list_sort].  On
    [cmp a b <= 0] the element of the left run is taken, which is what makes
    the sort stable. *)
Fixpoint merge (a : list A) : list A -> list A :=
  match a with
  | [] => fun b => b
  | x :: a' =>
      fix merge_right (b : list A) : list A :=
        match b with
        | [] => x :: a'
        | y :: b' =>
            if cmp x y <=? 0 then x :: merge a' (y :: b')
            else y :: merge_right b'
        end
  end.

(** Modelled from the spec: the pending runs of [list_sort].  [part] holds
    them, slot [lev] for a run of [2^lev] elements, the empty list standing
    for a NULL slot, and [add_run] carries a new run upwards through the
    occupied slots. *)
Fixpoint add_run (cur : list A) (part : list (list A)) : list (list A) :=
  match part with
  | [] => [cur]
  | [] :: rest => cur :: rest
  | p :: rest => [] :: add_run (merge p cur) rest
  end.

(** Modelled from the spec: the final pass of [list_sort], which merges the
    pending runs from the lowest slot upwards. *)
Definition merge_parts (part : list (list A)) : list A :=
  fold_left (fun acc p => merge p acc) part [].

(** Modelled from the spec: [list_sort] of linux/list_sort.h, whose body is
    not among the sources.  The spec asks for a sort ascending by [start]
    with a standard stable comparator, ties kept in discovery order; this is
    the bottom-up merge sort driven by [cmp a b <= 0]. *)
Definition list_sort (head : list A) : list A :=
  merge_parts (fold_left (fun part x => add_run [x] part) head []).

End ListSort.

(** ** The allocator pool *)

(** Modelled from the spec: a span registered with the external allocator
    of linux/genalloc.h, with its mapped address, its physical address, its
    size and what is still available of it. *)
Record gen_pool_chunk := {
  chunk_virt  : Z;
  chunk_phys  : Z;
  chunk_size  : Z;
  chunk_avail : Z
}.

(** Modelled from the spec: the allocator pool as this driver sees it, the
    chunks registered so far, and [room], the number of further
    registrations the allocator accepts before its resources are
    exhausted. *)
Record gen_pool := {
  chunks : list gen_pool_chunk;
  room   : nat
}.

(** Modelled from the spec: [gen_pool_add_virt] of linux/genalloc.h, the
    registration entry point of the external allocator.  It records the span
    with all of it available, or rejects the registration on resource
    exhaustion. *)
Definition gen_pool_add_virt (p : gen_pool) (virt phys sz nid : Z)
  : Z * gen_pool :=
  match room p with
  | O => (- ENOMEM, p)
  | S n =>
      (0, {| chunks := chunks p ++
                       [{| chunk_virt := virt; chunk_phys := phys;
                           chunk_size := sz; chunk_avail := sz |}];
             room := n |})
  end.

(** Modelled from the spec: [gen_pool_size], the total capacity. *)
Definition gen_pool_size (p : gen_pool) : Z :=
  fold_right (fun c acc => chunk_size c + acc) 0 (chunks p).

(** Modelled from the spec: [gen_pool_avail], the available capacity. *)
Definition gen_pool_avail (p : gen_pool) : Z :=
  fold_right (fun c acc => chunk_avail c + acc) 0 (chunks p).

(** ** Device state and observable effects *)

(** [struct sram_dev] without its [dev] pointer; a device without a clock
    has [clk] NULL. *)
Record sram_dev := {
  virt_base : Z;
  pool      : gen_pool;
  clk       : option Z
}.

(** The [dev_err] diagnostics of the driver. *)
Inductive diag :=
| could_not_get_address
| reserved_block_outside
| block_starts_after (block_start cur : Z)
| found_no_memory_resource
| could_not_request_region
| removed_while_allocated.

(** What the driver does to the rest of the kernel, in program order. *)
Inductive event :=
| dev_err (d : diag)
| clk_prepare_enable (c : Z)
| clk_disable_unprepare (c : Z).

(** Modelled from the spec: one available child node of the device as the
    enumeration of the hardware description hands it over, that is the
    return value of [of_address_to_resource] and the resource it filled
    in. *)
Record of_child := {
  of_ret    : Z;
  child_res : resource
}.

(** ** sram_reserve_regions *)

(** The local variables of [sram_reserve_regions] that survive an iteration,
    the pool of [sram] and the diagnostics printed so far. *)
Record frame := {
  blocks    : list sram_reserve;
  cur_start : Z;
  ret       : Z;
  fpool     : gen_pool;
  trace     : list event
}.

Definition set_blocks (b : list sram_reserve) (f : frame) : frame :=
  {| blocks := b; cur_start := cur_start f; ret := ret f;
     fpool := fpool f; trace := trace f |}.

Definition set_cur_start (c : Z) (f : frame) : frame :=
  {| blocks := blocks f; cur_start := c; ret := ret f;
     fpool := fpool f; trace := trace f |}.

Definition set_ret (r : Z) (f : frame) : frame :=
  {| blocks := blocks f; cur_start := cur_start f; ret := r;
     fpool := fpool f; trace := trace f |}.

Definition set_fpool (p : gen_pool) (f : frame) : frame :=
  {| blocks := blocks f; cur_start := cur_start f; ret := ret f;
     fpool := p; trace := trace f |}.

Definition emit (e : event) (f : frame) : frame :=
  {| blocks := blocks f; cur_start := cur_start f; ret := ret f;
     fpool := fpool f; trace := trace f ++ [e] |}.

(** How an iteration ends: it falls through to the next one, or jumps to
    the [err_chunks] label. *)
Inductive flow :=
| next (f : frame)
| err_chunks (f : frame).

Definition frame_of (w : flow) : frame :=
  match w with next f => f | err_chunks f => f end.

Fixpoint for_each {X : Type} (body : X -> frame -> flow)
                  (l : list X) (f : frame) : flow :=
  match l with
  | [] => next f
  | x :: l' =>
      match body x f with
      | next f' => for_each body l' f'
      | err_chunks f' => err_chunks f'
      end
  end.

(** What [sram_reserve_regions] leaves behind: its return value, the pool
    and the diagnostics. *)
Record outcome := {
  out_ret   : Z;
  out_pool  : gen_pool;
  out_trace : list event
}.

Section Reserve.

Variable P : platform.
Variable sram : sram_dev.
Variable res : resource.

Definition ulong (x : Z) : Z := wrap (ulong_w P) x.
Definition phys (x : Z) : Z := wrap (phys_w P) x.

(** The block recorded for a child: both fields narrowed to [u32]. *)
Definition block_of (c : resource) : sram_reserve :=
  {| start := u32 (phys (res_start c - res_start res));
     size  := u32 (resource_size P c) |}.

(** Body of the loop over the available child nodes. *)
Definition child_body (child : of_child) (f : frame) : flow :=
  let f := set_ret (of_ret child) f in
  if ret f <? 0 then
    err_chunks (emit (dev_err could_not_get_address) f)
  else if (res_start (child_res child) <? res_start res)
          || (res_end res <? res_end (child_res child)) then
    err_chunks (set_ret (- EINVAL) (emit (dev_err reserved_block_outside) f))
  else
    next (set_blocks (blocks f ++ [block_of (child_res child)]) f).

(** The last chunk, which marks the end of the region. *)
Definition end_marker : sram_reserve :=
  {| start := u32 (ulong (resource_size P res)); size := 0 |}.

(** Body of the loop over the sorted list. *)
Definition scan_body (block : sram_reserve) (f : frame) : flow :=
  if start block <? cur_start f then
    err_chunks
      (set_ret (- EINVAL)
         (emit (dev_err (block_starts_after (start block) (cur_start f))) f))
  else if start block =? cur_start f then
    next (set_cur_start (ulong (u32 (start block + size block))) f)
  else
    let cur_size := ulong (start block - cur_start f) in
    let '(r, p) :=
      gen_pool_add_virt (fpool f)
        (ulong (virt_base sram + cur_start f))
        (phys (res_start res + cur_start f)) cur_size (-1) in
    let f := set_fpool p (set_ret r f) in
    if ret f <? 0 then err_chunks f
    else next (set_cur_start (ulong (u32 (start block + size block))) f).

(** The frame on entry to the first loop. *)
Definition entry : frame :=
  {| blocks := []; cur_start := 0; ret := 0;
     fpool := pool sram; trace := [] |}.

(** First loop: one block per available child. *)
Definition collect (children : list of_child) : flow :=
  for_each child_body children entry.

(** Between the loops: the end marker is appended, the list is sorted and
    the running offset is reset. *)
Definition prepare (f : frame) : frame :=
  let f := set_blocks (blocks f ++ [end_marker]) f in
  let f := set_blocks (list_sort sram_reserve_cmp (blocks f)) f in
  set_cur_start 0 f.

(** Second loop: the scan of the sorted list. *)
Definition scan (f : frame) : flow :=
  for_each scan_body (blocks f) f.

(** The function after the allocation of [rblocks] succeeded. *)
Definition reserve_frame (children : list of_child) : flow :=
  match collect children with
  | err_chunks f => err_chunks f
  | next f => scan (prepare f)
  end.

(** [sram_reserve_regions]; [kmalloc_ok] tells whether the allocation of
    the block array succeeds.  A device without a node has no children. *)
Definition sram_reserve_regions (kmalloc_ok : bool)
                                (children : list of_child) : outcome :=
  if kmalloc_ok then
    let f := frame_of (reserve_frame children) in
    {| out_ret := ret f; out_pool := fpool f; out_trace := trace f |}
  else
    {| out_ret := - ENOMEM; out_pool := pool sram; out_trace := [] |}.

End Reserve.

(** ** sram_probe and sram_remove *)

(** The platform device: its first memory resource, if any, and the
    available children of its device node. *)
Record platform_device := {
  mem_resource : option resource;
  of_children  : list of_child
}.

(** Modelled from the spec: the answers of the collaborators [sram_probe]
    calls (allocation, region request, mapping, pool creation, clock).  A
    service that returns an error pointer answers [inr e], with [e] what
    PTR_ERR gives; otherwise it answers [inl p] with the pointer [p] it
    returned, which for [clk_get] may be NULL, that is 0. *)
Record services := {
  kzalloc_ok    : bool;
  request_ok    : bool;
  ioremap_wc    : Z + Z;
  pool_create   : nat + Z;
  kmalloc_ok    : bool;
  clk_get       : Z + Z
}.

Record probed := {
  probe_ret   : Z;
  drvdata     : option sram_dev;
  probe_trace : list event
}.

(** What [sram->clk] holds after [devm_clk_get] returned the pointer [c]
    and it was not an error pointer: [c] itself, which is no clock when [c]
    is NULL. *)
Definition held_clock (c : Z) : option Z :=
  if c =? 0 then None else Some c.

Definition probe_fail (r : Z) (t : list event) : probed :=
  {| probe_ret := r; drvdata := None; probe_trace := t |}.

Definition sram_probe (P : platform) (env : services) (pdev : platform_device)
  : probed :=
  if negb (kzalloc_ok env) then probe_fail (- ENOMEM) []
  else
    match mem_resource pdev with
    | None => probe_fail (- EINVAL) [dev_err found_no_memory_resource]
    | Some res =>
        if negb (request_ok env) then
          probe_fail (- EBUSY) [dev_err could_not_request_region]
        else
          match ioremap_wc env with
          | inr e => probe_fail e []
          | inl virt =>
              match pool_create env with
              | inr e => probe_fail e []
              | inl n =>
                  let sram := {| virt_base := virt;
                                 pool := {| chunks := []; room := n |};
                                 clk := None |} in
                  let o := sram_reserve_regions P sram res (kmalloc_ok env)
                             (of_children pdev) in
                  if negb (out_ret o =? 0) then
                    probe_fail (out_ret o) (out_trace o)
                  else
                    match clk_get env with
                    | inr _ =>
                        {| probe_ret := 0;
                           drvdata := Some {| virt_base := virt;
                                              pool := out_pool o;
                                              clk := None |};
                           probe_trace := out_trace o |}
                    | inl c =>
                        {| probe_ret := 0;
                           drvdata := Some {| virt_base := virt;
                                              pool := out_pool o;
                                              clk := held_clock c |};
                           probe_trace :=
                             out_trace o ++ [clk_prepare_enable c] |}
                    end
              end
          end
    end.

(** [sram_remove]: its return value and what it does on the way. *)
Definition sram_remove (sram : sram_dev) : Z * list event :=
  let t := if gen_pool_avail (pool sram) <? gen_pool_size (pool sram)
           then [dev_err removed_while_allocated] else [] in
  let t := match clk sram with
           | Some c => t ++ [clk_disable_unprepare c]
           | None => t
           end in
  (0, t).

(** ** Reading the inputs and the results *)

(** A child resolved by [of_address_to_resource]. *)
Definition resolved (r : resource) : of_child :=
  {| of_ret := 0; child_res := r |}.

(** A resource of the platform: both ends are addresses, and the range may
    be empty ([res_end] just below [res_start]) but not inverted. *)
Definition wf_resource (P : platform) (r : resource) : Prop :=
  0 <= res_start r <= res_end r + 1 /\
  0 <= res_end r < modulus (phys_w P).

(** The extent of the region, as a number. *)
Definition region_size (res : resource) : Z :=
  res_end res - res_start res + 1.

(** The child lies inside the region: the test of the first loop. *)
Definition inside (res c : resource) : Prop :=
  res_start res <= res_start c /\ res_end c <= res_end res.

(** Address [a] belongs to the reserved range [c]. *)
Definition in_resource (c : resource) (a : Z) : bool :=
  (res_start c <=? a) && (a <=? res_end c).

(** Address [a] belongs to the span registered as chunk [k]. *)
Definition in_chunk (k : gen_pool_chunk) (a : Z) : bool :=
  (chunk_phys k <=? a) && (a <? chunk_phys k + chunk_size k).

(** Offset [x] belongs to block [b]. *)
Definition in_block (b : sram_reserve) (x : Z) : bool :=
  (start b <=? x) && (x <? start b + size b).

(** Number of elements of [l] that [a] belongs to. *)
Definition hits {X : Type} (inb : X -> Z -> bool) (l : list X) (a : Z) : nat :=
  length (filter (fun x => inb x a) l).

(** The free span of a chunk, as offsets into the region: start and size. *)
Definition span_of (res : resource) (k : gen_pool_chunk) : Z * Z :=
  (chunk_phys k - res_start res, chunk_size k).

Definition free_spans (res : resource) (p : gen_pool) : list (Z * Z) :=
  map (span_of res) (chunks p).

(** Ascending order of a numeric key, and what the sort keeps true of a
    pending run: it is ascending and made of elements of the domain [D]. *)
Definition key_le {A : Type} (key : A -> Z) (a b : A) : Prop :=
  key a <= key b.

Definition good_run {A : Type} (key : A -> Z) (D : A -> Prop)
                    (r : list A) : Prop :=
  Forall D r /\ StronglySorted (key_le key) r.

(** The frames a loop goes through: the frame before each iteration and
    the one it ends in. *)
Fixpoint visited {X : Type} (body : X -> frame -> flow)
                 (l : list X) (f : frame) : list frame :=
  f :: match l with
       | [] => []
       | x :: l' =>
           match body x f with
           | next f' => visited body l' f'
           | err_chunks f' => [f']
           end
       end.

(** The first loop's test on a child, as a boolean. *)
Definition inside_b (res c : resource) : bool :=
  negb ((res_start c <? res_start res) || (res_end res <? res_end c)).

(** Start of a reserved range as an offset into the region. *)
Definition offset (res c : resource) : Z := res_start c - res_start res.

(** Two reserved ranges intersect: some address belongs to both. *)
Definition intersect (a b : resource) : Prop :=
  exists x, in_resource a x = true /\ in_resource b x = true.

(** A block that lies in a region of [n] bytes. *)
Definition bounded (n : Z) (b : sram_reserve) : Prop :=
  0 <= start b /\ 0 <= size b /\ start b + size b <= n.

(** The chunk the scan registers for the gap between the running offset of
    [f] and block [b]. *)
Definition gap_chunk (P : platform) (sram : sram_dev) (res : resource)
                     (f : frame) (b : sram_reserve) : gen_pool_chunk :=
  {| chunk_virt  := ulong P (virt_base sram + cur_start f);
     chunk_phys  := phys P (res_start res + cur_start f);
     chunk_size  := ulong P (start b - cur_start f);
     chunk_avail := ulong P (start b - cur_start f) |}.

Arguments gap_chunk : simpl never.

(** The chunks follow one another without touching. *)
Definition chunk_before (k1 k2 : gen_pool_chunk) : Prop :=
  chunk_phys k1 + chunk_size k1 <= chunk_phys k2.

(** A chunk that is not empty and lies between two addresses. *)
Definition chunk_within (lo hi : Z) (k : gen_pool_chunk) : Prop :=
  lo <= chunk_phys k /\ 0 < chunk_size k /\
  chunk_phys k + chunk_size k <= hi.

Definition cursor_le (f1 f2 : frame) : Prop := cur_start f1 <= cur_start f2.

(** Between the offsets [c] and [e], every offset of the region belongs to
    exactly one block of [l] or one chunk of [new], and outside of them to
    none; the chunks are not empty, lie between [c] and [e] and follow one
    another. *)
Definition tiles (res : resource) (c e : Z) (l : list sram_reserve)
                 (new : list gen_pool_chunk) : Prop :=
  c <= e /\
  (forall x, (hits in_block l x + hits in_chunk new (res_start res + x))%nat =
             if (c <=? x) && (x <? e) then 1%nat else 0%nat) /\
  Forall (chunk_within (res_start res + c) (res_start res + e)) new /\
  StronglySorted chunk_before new.

(** The list the second loop goes over for the children [rs], and the frame
    it starts from. *)
Definition sorted_blocks (P : platform) (res : resource)
                         (rs : list resource) : list sram_reserve :=
  list_sort sram_reserve_cmp (map (block_of P res) rs ++ [end_marker P res]).

Definition scan_entry (P : platform) (sram : sram_dev) (res : resource)
                      (rs : list resource) : frame :=
  prepare P res (set_blocks (map (block_of P res) rs) (entry sram)).

(** ** Sample configurations and devices *)

Module Sample.

Definition lp64 : platform := {| ulong_w := W64; phys_w := W64 |}.
Definition ilp32 : platform := {| ulong_w := W32; phys_w := W32 |}.

(** A device with a fresh pool, as [sram_probe] sets it up. *)
Definition dev : sram_dev :=
  {| virt_base := 0xf0000000;
     pool := {| chunks := []; room := 8 |};
     clk := None |}.

(** A region of 0x10000 bytes at 0x20000000. *)
Definition region : resource :=
  {| res_start := 0x20000000; res_end := 0x2000ffff |}.

(** The reserved range of [z] bytes at offset [s] of [region]. *)
Definition child (s z : Z) : resource :=
  {| res_start := 0x20000000 + s; res_end := 0x20000000 + s + z - 1 |}.

(** A region of 4 GiB plus one page, at address 0. *)
Definition huge : resource :=
  {| res_start := 0; res_end := 0x100000fff |}.

(** A region of exactly 4 GiB, at address 0. *)
Definition four_gib : resource :=
  {| res_start := 0; res_end := 0xffffffff |}.

(** A region of 8 GiB and 32 bytes, with a reserved range of 32 bytes
    that straddles the 4 GiB boundary. *)
Definition wide : resource :=
  {| res_start := 0; res_end := 0x20000001f |}.

Definition straddle : resource :=
  {| res_start := 0xfffffff0; res_end := 0x10000000f |}.

(** A region of 8 GiB plus one page, with two reserved ranges that
    intersect: the first 4 GiB and 16 bytes, and 16 bytes at offset 32. *)
Definition wide_page : resource :=
  {| res_start := 0; res_end := 0x200000fff |}.

Definition low_half : resource :=
  {| res_start := 0; res_end := 0x10000000f |}.

Definition small_range : resource :=
  {| res_start := 0x20; res_end := 0x2f |}.

(** A region of 0x90000000 bytes at address 0, with its first page
    reserved. *)
Definition big : resource :=
  {| res_start := 0; res_end := 0x8fffffff |}.

Definition first_page : resource :=
  {| res_start := 0; res_end := 0xfff |}.


End Sample.

(** ** Children whose last address wrapped *)

Module SampleWrapped.

(** The child at offset 0x20000 of [Sample.region], beyond its end, with a
    size of 0xfffe0080 bytes: in 32 bits its last address wraps to
    0x2000007f. *)
Definition beyond : resource :=
  {| res_start := 0x20020000; res_end := 0x2000007f |}.

(** The child at offset 0x100 of [Sample.region] with a size of 0xffffff80
    bytes: its last address wraps to offset 0x7f. *)
Definition within : resource :=
  {| res_start := 0x20000100; res_end := 0x2000007f |}.

End SampleWrapped.

(** ** A sample platform device *)

Module SampleProbe.

(** Kernel services that all answer; the clock is number 7. *)
Definition services_ok : services :=
  {| kzalloc_ok := true; request_ok := true;
     ioremap_wc := inl 0xf0000000; pool_create := inl 8%nat;
     kmalloc_ok := true; clk_get := inl 7 |}.

(** The device of [Sample.region] with the page at offset 0x4000
    reserved. *)
Definition device : platform_device :=
  {| mem_resource := Some Sample.region;
     of_children := map resolved [Sample.child 0x4000 0x1000] |}.

(** The device data the probe of [device] publishes. *)
Definition published : sram_dev :=
  {| virt_base := 0xf0000000;
     pool :=
       {| chunks :=
            [{| chunk_virt := 0xf0000000; chunk_phys := 0x20000000;
                chunk_size := 0x4000; chunk_avail := 0x4000 |};
             {| chunk_virt := 0xf0005000; chunk_phys := 0x20005000;
                chunk_size := 0xb000; chunk_avail := 0xb000 |}];
          room := 6 |};
     clk := Some 7 |}.

End SampleProbe.

(** ** Readings used by the further properties *)

(** A child passes the first loop: its address was resolved and its range
    lies inside the region. *)
Definition child_passes (res : resource) (c : of_child) : bool :=
  negb (of_ret c <? 0) && inside_b res (child_res c).

(** The bytes the reserved ranges take. *)
Definition reserved_bytes (rs : list resource) : Z :=
  fold_right (fun c acc => region_size c + acc) 0 rs.

(** The bytes the blocks take. *)
Definition block_bytes (l : list sram_reserve) : Z :=
  fold_right (fun b acc => size b + acc) 0 l.

(** A chunk as the scan registers it: all of it available, and its mapped
    and physical addresses at one and the same 32-bit offset from the
    mapping of the device and from the start of the region. *)
Definition chunk_mapped (P : platform) (sram : sram_dev) (res : resource)
                        (k : gen_pool_chunk) : Prop :=
  chunk_avail k = chunk_size k /\
  exists off, 0 <= off < 2 ^ 32 /\
    chunk_virt k = ulong P (virt_base sram + off) /\
    chunk_phys k = phys P (res_start res + off).

(** Each block ends where the next ones start, or before. *)
Definition ends_before (a b : sram_reserve) : Prop :=
  start a + size a <= start b.

(** The first chunk ends strictly before the second starts: at least one
    address lies between them. *)
Definition chunk_apart (k1 k2 : gen_pool_chunk) : Prop :=
  chunk_phys k1 + chunk_size k1 < chunk_phys k2.

(** Two frames agree on what the caller of [sram_reserve_regions] gets:
    the return value and the pool. *)
Definition same_result (f g : frame) : Prop :=
  ret f = ret g /\ fpool f = fpool g.

(** The events of a list that are diagnostics. *)
Definition is_diag (e : event) : bool :=
  match e with dev_err _ => true | _ => false end.

(** * Facts about the machine integers *)

Section IntFacts.

Lemma modulus_ge32 w : 2 ^ 32 <= modulus w.
Proof. destruct w; unfold modulus; simpl; lia. Qed.

Lemma modulus_pos w : 0 < modulus w.
Proof. pose proof (modulus_ge32 w); lia. Qed.

Lemma u32_small x : 0 <= x < 2 ^ 32 -> u32 x = x.
Proof. intros; unfold u32; now apply Z.mod_small. Qed.

Lemma u32_range x : 0 <= u32 x < 2 ^ 32.
Proof. unfold u32; apply Z.mod_pos_bound; lia. Qed.

Lemma wrap_small w x : 0 <= x < modulus w -> wrap w x = x.
Proof. intros; unfold wrap; now apply Z.mod_small. Qed.

Lemma wrap_range w x : 0 <= wrap w x < modulus w.
Proof. unfold wrap; apply Z.mod_pos_bound, modulus_pos. Qed.

Lemma wrap_u32 w x : 0 <= x < 2 ^ 32 -> wrap w x = x.
Proof. intros; apply wrap_small; pose proof (modulus_ge32 w); lia. Qed.

(** Narrowing an unsigned value of width [w] to [u32] forgets [w]. *)
Lemma u32_wrap w x : u32 (wrap w x) = u32 x.
Proof.
  unfold u32, wrap, modulus.
  apply Z.mod_mod_divide.
  destruct w; simpl bits.
  - exists 1; lia.
  - exists (2 ^ 32); reflexivity.
Qed.

End IntFacts.

(** * Facts about the sort *)

Section ListSortFacts.

Context {A : Type}.
Variable cmp : A -> A -> Z.

Lemma merge_nil_r (a : list A) : merge cmp a [] = a.
Proof. now destruct a. Qed.

Lemma merge_cons (x y : A) (a b : list A) :
  merge cmp (x :: a) (y :: b) =
  if cmp x y <=? 0 then x :: merge cmp a (y :: b)
  else y :: merge cmp (x :: a) b.
Proof. reflexivity. Qed.

Lemma merge_perm (a b : list A) : Permutation (merge cmp a b) (a ++ b).
Proof.
  revert b; induction a as [|x a IHa]; intro b; [reflexivity|].
  induction b as [|y b IHb].
  - rewrite merge_nil_r, app_nil_r; reflexivity.
  - rewrite merge_cons; destruct (cmp x y <=? 0).
    + simpl; constructor; apply IHa.
    + rewrite IHb; apply Permutation_middle.
Qed.

Lemma add_run_perm (part : list (list A)) (cur : list A) :
  Permutation (concat (add_run cmp cur part)) (cur ++ concat part).
Proof.
  revert cur; induction part as [|p rest IH]; intro cur; simpl.
  - reflexivity.
  - destruct p as [|x p]; [reflexivity|].
    cbn [concat app]; rewrite IH, merge_perm.
    rewrite <- app_assoc; apply Permutation_app_swap_app.
Qed.

Lemma merge_parts_perm (part : list (list A)) (acc : list A) :
  Permutation (fold_left (fun acc p => merge cmp p acc) part acc)
              (acc ++ concat part).
Proof.
  revert acc; induction part as [|p rest IH]; intro acc; simpl.
  - now rewrite app_nil_r.
  - rewrite IH, merge_perm, (app_assoc acc p).
    apply Permutation_app_tail, Permutation_app_comm.
Qed.

Lemma runs_perm (l : list A) (part : list (list A)) :
  Permutation
    (concat (fold_left (fun part x => add_run cmp [x] part) l part))
    (concat part ++ l).
Proof.
  revert part; induction l as [|x l IH]; intro part; simpl.
  - now rewrite app_nil_r.
  - rewrite IH, add_run_perm; simpl.
    apply Permutation_cons_app; reflexivity.
Qed.

(** The sorted list holds the elements of the input, each as often. *)
Lemma list_sort_perm (l : list A) : Permutation (list_sort cmp l) l.
Proof.
  unfold list_sort, merge_parts.
  rewrite merge_parts_perm, runs_perm; reflexivity.
Qed.

(** Where [cmp] agrees with the order of a numeric key, the result is
    ascending in that key. *)
Variable key : A -> Z.
Variable D : A -> Prop.
Hypothesis cmp_key :
  forall a b, D a -> D b -> (cmp a b <= 0 <-> key a <= key b).

Lemma merge_sorted (a b : list A) :
  Forall D a -> Forall D b ->
  StronglySorted (key_le key) a -> StronglySorted (key_le key) b ->
  StronglySorted (key_le key) (merge cmp a b).
Proof.
  revert b; induction a as [|x a IHa]; intros b Da Db Sa Sb; [exact Sb|].
  induction b as [|y b IHb]; [now rewrite merge_nil_r|].
  rewrite merge_cons.
  inversion Da as [|? ? Dx Da']; inversion Db as [|? ? Dy Db']; subst.
  inversion Sa as [|? ? Sa' Fa]; inversion Sb as [|? ? Sb' Fb]; subst.
  destruct (Z.leb_spec (cmp x y) 0) as [Hc|Hc].
  - constructor; [now apply IHa|].
    apply (Permutation_Forall (Permutation_sym (merge_perm a (y :: b)))).
    apply Forall_app; split; [exact Fa|].
    assert (Hxy : (key_le key) x y) by now apply cmp_key.
    constructor; [exact Hxy|].
    eapply Forall_impl; [|exact Fb]; unfold key_le in *; intros; lia.
  - constructor; [now apply IHb|].
    apply (Permutation_Forall (Permutation_sym (merge_perm (x :: a) b))).
    assert (Hyx : (key_le key) y x).
    { unfold key_le; destruct (Z.le_gt_cases (key y) (key x)); [assumption|].
      assert (cmp x y <= 0) by (apply cmp_key; [assumption..|lia]); lia. }
    apply Forall_app; split; [|exact Fb].
    constructor; [exact Hyx|].
    eapply Forall_impl; [|exact Fa]; unfold key_le in *; intros; lia.
Qed.

Lemma merge_dom (a b : list A) :
  Forall D a -> Forall D b -> Forall D (merge cmp a b).
Proof.
  intros Da Db.
  apply (Permutation_Forall (Permutation_sym (merge_perm a b))).
  now apply Forall_app.
Qed.

Lemma add_run_good (part : list (list A)) (cur : list A) :
  (good_run key D) cur -> Forall (good_run key D) part ->
  Forall (good_run key D) (add_run cmp cur part).
Proof.
  revert cur; induction part as [|p rest IH]; intros cur Hc Hp; simpl.
  - now constructor.
  - inversion Hp as [|? ? [Dp Sp] Hrest]; subst.
    destruct p as [|x p]; [now constructor|].
    constructor; [split; constructor|].
    apply IH; [|exact Hrest].
    destruct Hc as [Dc Sc]; split; [now apply merge_dom|now apply merge_sorted].
Qed.

Lemma runs_good (l : list A) (part : list (list A)) :
  Forall D l -> Forall (good_run key D) part ->
  Forall (good_run key D) (fold_left (fun part x => add_run cmp [x] part) l part).
Proof.
  revert part; induction l as [|x l IH]; intros part Dl Hp; simpl; [exact Hp|].
  inversion Dl; subst.
  apply IH; [assumption|].
  apply add_run_good; [|exact Hp].
  split; repeat constructor; assumption.
Qed.

Lemma merge_parts_good (part : list (list A)) (acc : list A) :
  (good_run key D) acc -> Forall (good_run key D) part ->
  (good_run key D) (fold_left (fun acc p => merge cmp p acc) part acc).
Proof.
  revert acc; induction part as [|p rest IH]; intros acc Ha Hp; simpl; [exact Ha|].
  inversion Hp as [|? ? [Dp Sp] Hrest]; subst.
  destruct Ha as [Da Sa].
  apply IH; [|exact Hrest].
  split; [now apply merge_dom|now apply merge_sorted].
Qed.

Lemma list_sort_sorted (l : list A) :
  Forall D l -> StronglySorted (key_le key) (list_sort cmp l).
Proof.
  intro Dl; unfold list_sort, merge_parts.
  apply merge_parts_good.
  - split; constructor.
  - apply runs_good; [exact Dl|constructor].
Qed.

(** Two ascending arrangements of the same elements are the same list,
    provided elements with the same key are the same element. *)
Lemma sorted_perm_unique (l1 l2 : list A) :
  (forall a b, In a l1 -> In b l1 -> key a = key b -> a = b) ->
  StronglySorted (key_le key) l1 -> StronglySorted (key_le key) l2 ->
  Permutation l1 l2 -> l1 = l2.
Proof.
  revert l2; induction l1 as [|x l1 IH]; intros l2 Hinj S1 S2 Hp.
  - now apply Permutation_nil in Hp.
  - destruct l2 as [|y l2]; [now apply Permutation_sym, Permutation_nil in Hp|].
    inversion S1 as [|? ? S1' F1]; inversion S2 as [|? ? S2' F2]; subst.
    assert (Exy : x = y).
    { assert (Hy : In y (x :: l1))
        by (apply (Permutation_in _ (Permutation_sym Hp)); now left).
      assert (Hx : In x (y :: l2))
        by (apply (Permutation_in _ Hp); now left).
      destruct Hy as [->|Hy]; [reflexivity|].
      destruct Hx as [->|Hx]; [reflexivity|].
      rewrite Forall_forall in F1, F2.
      apply Hinj; [now left|now right|].
      specialize (F1 _ Hy); specialize (F2 _ Hx); unfold key_le in *; lia. }
    subst y; f_equal.
    apply IH; [|assumption..|now apply Permutation_cons_inv in Hp].
    intros a b Ha Hb; apply Hinj; now right.
Qed.

End ListSortFacts.

(** * Facts about counting *)

Section Hits.

Context {X : Type}.
Variable inb : X -> Z -> bool.

Lemma hits_cons (x : X) (l : list X) (a : Z) :
  hits inb (x :: l) a = ((if inb x a then 1 else 0) + hits inb l a)%nat.
Proof. unfold hits; simpl; now destruct (inb x a). Qed.

Lemma hits_app (l1 l2 : list X) (a : Z) :
  hits inb (l1 ++ l2) a = (hits inb l1 a + hits inb l2 a)%nat.
Proof. unfold hits; now rewrite filter_app, length_app. Qed.

Lemma hits_perm (l1 l2 : list X) (a : Z) :
  Permutation l1 l2 -> hits inb l1 a = hits inb l2 a.
Proof.
  intro H; unfold hits; apply Permutation_length.
  induction H; simpl.
  - constructor.
  - destruct (inb x a); [now constructor|assumption].
  - destruct (inb x a), (inb y a); try constructor; reflexivity.
  - etransitivity; eassumption.
Qed.

End Hits.

Lemma hits_map {X Y : Type} (inb : X -> Z -> bool) (g : Y -> X)
      (inb' : Y -> Z -> bool) (l : list Y) (a a' : Z) :
  (forall y, In y l -> inb (g y) a = inb' y a') ->
  hits inb (map g l) a = hits inb' l a'.
Proof.
  induction l as [|y l IH]; intro H; [reflexivity|].
  simpl map; rewrite !hits_cons, IH, H;
    [reflexivity|now left|intros; apply H; now right].
Qed.

(** * Facts about the comparison *)

Lemma s32_u32_small (d : Z) : - 2 ^ 31 <= d < 2 ^ 31 -> s32 (u32 d) = d.
Proof.
  intro H; unfold s32, u32.
  rewrite Z.mod_mod by lia.
  destruct (Z.ltb_spec (d mod 2 ^ 32) (2 ^ 31)); Z.div_mod_to_equations; lia.
Qed.

(** Starts less than [2^31] apart are compared as numbers. *)
Lemma sram_reserve_cmp_small (a b : sram_reserve) :
  - 2 ^ 31 <= start a - start b < 2 ^ 31 ->
  sram_reserve_cmp a b = start a - start b.
Proof. intro H; unfold sram_reserve_cmp; now apply s32_u32_small. Qed.

Lemma sram_reserve_cmp_le (n : Z) (a b : sram_reserve) :
  n < 2 ^ 31 -> 0 <= start a <= n -> 0 <= start b <= n ->
  (sram_reserve_cmp a b <= 0 <-> start a <= start b).
Proof. intros; rewrite sram_reserve_cmp_small; lia. Qed.

(** * Facts about the two loops *)

Section ReserveFacts.

Variable P : platform.
Variable sram : sram_dev.
Variable res : resource.

Local Abbreviation N := (region_size res).
Local Abbreviation sbody := (scan_body P sram res).
Local Abbreviation cbody := (child_body P res).
Local Abbreviation blk := (block_of P res).
Local Abbreviation marker := (end_marker P res).

Lemma for_each_app {X : Type} (body : X -> frame -> flow)
      (l1 l2 : list X) (f : frame) :
  for_each body (l1 ++ l2) f =
  match for_each body l1 f with
  | next f' => for_each body l2 f'
  | err_chunks f' => err_chunks f'
  end.
Proof.
  revert f; induction l1 as [|x l1 IH]; intro f; simpl; [reflexivity|].
  destruct (body x f); [apply IH|reflexivity].
Qed.

Lemma ulong_u32 (x : Z) : ulong P (u32 x) = u32 x.
Proof. apply wrap_u32, u32_range. Qed.

(** *** The first loop *)

Lemma inside_b_true (c : resource) : inside_b res c = true <-> inside res c.
Proof.
  unfold inside_b, inside.
  rewrite negb_true_iff, orb_false_iff, !Z.ltb_ge; tauto.
Qed.

Lemma child_body_resolved (c : resource) (f : frame) :
  cbody (resolved c) f =
  if inside_b res c then
    next (set_blocks (blocks f ++ [blk c]) (set_ret 0 f))
  else
    err_chunks (set_ret (- EINVAL)
                  (emit (dev_err reserved_block_outside) (set_ret 0 f))).
Proof.
  unfold child_body, inside_b; simpl.
  now destruct ((res_start c <? res_start res) || (res_end res <? res_end c)).
Qed.

(** All children inside the region: one block each, in discovery order. *)
Lemma children_inside (rs : list resource) (f : frame) :
  ret f = 0 -> Forall (inside res) rs ->
  for_each cbody (map resolved rs) f =
  next (set_blocks (blocks f ++ map blk rs) f).
Proof.
  revert f; induction rs as [|c rs IH]; intros f Hr Hin; simpl map.
  - destruct f; simpl in *; unfold set_blocks; simpl.
    now rewrite app_nil_r.
  - inversion Hin as [|? ? Hc Hrs]; subst.
    cbn [for_each]; rewrite child_body_resolved.
    apply inside_b_true in Hc; rewrite Hc.
    rewrite IH by (try assumption; reflexivity).
    destruct f; simpl in *; subst; unfold set_blocks, set_ret; simpl.
    now rewrite <- app_assoc.
Qed.

(** A child outside the region: the loop stops at the first such child,
    before the pool is touched. *)
Lemma children_outside (rs : list resource) (f : frame) :
  ~ Forall (inside res) rs ->
  exists f', for_each cbody (map resolved rs) f = err_chunks f' /\
             ret f' = - EINVAL /\ fpool f' = fpool f /\
             trace f' = trace f ++ [dev_err reserved_block_outside].
Proof.
  revert f; induction rs as [|c rs IH]; intros f Hn.
  - exfalso; apply Hn; constructor.
  - simpl map; cbn [for_each]; rewrite child_body_resolved.
    destruct (inside_b res c) eqn:Hc.
    + apply inside_b_true in Hc.
      destruct (IH (set_blocks (blocks f ++ [blk c]) (set_ret 0 f)))
        as (f' & E & R & Q & T).
      { intro H; apply Hn; now constructor. }
      exists f'; repeat split; assumption.
    + eexists; split; [reflexivity|]; now simpl.
Qed.

Lemma collect_inside (rs : list resource) :
  Forall (inside res) rs ->
  collect P sram res (map resolved rs) =
  next (set_blocks (map blk rs) (entry sram)).
Proof. intro H; unfold collect; now rewrite children_inside. Qed.

Lemma collect_outside (rs : list resource) :
  ~ Forall (inside res) rs ->
  exists f', collect P sram res (map resolved rs) = err_chunks f' /\
             ret f' = - EINVAL /\ fpool f' = pool sram /\
             trace f' = [dev_err reserved_block_outside].
Proof. intro H; unfold collect; now apply (children_outside rs (entry sram)). Qed.

Lemma inside_dec (rs : list resource) :
  Forall (inside res) rs \/ ~ Forall (inside res) rs.
Proof.
  destruct (forallb (inside_b res) rs) eqn:E.
  - left; rewrite forallb_forall in E; apply Forall_forall.
    intros c Hc; now apply inside_b_true, E.
  - right; intro H; rewrite Forall_forall in H.
    assert (forallb (inside_b res) rs = true); [|congruence].
    apply forallb_forall; intros c Hc; now apply inside_b_true, H.
Qed.

(** *** The second loop, one iteration *)

Lemma scan_body_lt (b : sram_reserve) (f : frame) :
  start b < cur_start f ->
  sbody b f =
  err_chunks
    (set_ret (- EINVAL)
       (emit (dev_err (block_starts_after (start b) (cur_start f))) f)).
Proof.
  intro H; unfold scan_body.
  destruct (Z.ltb_spec (start b) (cur_start f)); [reflexivity|lia].
Qed.

Lemma scan_body_eq (b : sram_reserve) (f : frame) :
  start b = cur_start f ->
  sbody b f = next (set_cur_start (u32 (start b + size b)) f).
Proof.
  intro H; unfold scan_body.
  rewrite H, Z.ltb_irrefl, Z.eqb_refl.
  now rewrite ulong_u32.
Qed.

Lemma scan_body_gt (b : sram_reserve) (f : frame) :
  cur_start f < start b ->
  sbody b f =
  match room (fpool f) with
  | O => err_chunks (set_fpool (fpool f) (set_ret (- ENOMEM) f))
  | S n =>
      next (set_cur_start (u32 (start b + size b))
              (set_fpool {| chunks := chunks (fpool f) ++
                                       [gap_chunk P sram res f b];
                            room := n |}
                 (set_ret 0 f)))
  end.
Proof.
  intro H; unfold scan_body.
  destruct (Z.ltb_spec (start b) (cur_start f)); [lia|].
  destruct (Z.eqb_spec (start b) (cur_start f)); [lia|].
  unfold gen_pool_add_virt, gap_chunk.
  destruct (room (fpool f)); simpl; [reflexivity|].
  now rewrite ulong_u32.
Qed.

(** An iteration that jumps to [err_chunks] leaves a negative [ret]. *)
Lemma scan_body_err (b : sram_reserve) (f f' : frame) :
  sbody b f = err_chunks f' -> ret f' < 0.
Proof.
  destruct (Z.lt_trichotomy (start b) (cur_start f)) as [H|[H|H]].
  - rewrite scan_body_lt by assumption; intro E; inversion E; simpl.
    unfold EINVAL; lia.
  - rewrite scan_body_eq by assumption; discriminate.
  - rewrite scan_body_gt by assumption.
    destruct (room (fpool f)); intro E; inversion E; simpl.
    unfold ENOMEM; lia.
Qed.

Lemma scan_err (l : list sram_reserve) (f f' : frame) :
  for_each sbody l f = err_chunks f' -> ret f' < 0.
Proof.
  revert f; induction l as [|b l IH]; intro f; simpl; [discriminate|].
  destruct (sbody b f) as [f1|f1] eqn:E.
  - apply IH.
  - intro H; inversion H; subst; eapply scan_body_err; eassumption.
Qed.

(** *** Blocks of a region whose size fits in 32 bits *)

Hypothesis res_wf : wf_resource P res.
Hypothesis res_small : N < 2 ^ 32.

Lemma marker_small : marker = {| start := N; size := 0 |}.
Proof.
  unfold end_marker, resource_size, ulong; fold N.
  destruct res_wf as [? ?]; unfold region_size in *.
  rewrite (wrap_u32 (phys_w P)), (wrap_u32 (ulong_w P)), u32_small;
    [reflexivity|lia..].
Qed.

Lemma block_of_small (c : resource) :
  wf_resource P c -> inside res c ->
  blk c = {| start := offset res c; size := region_size c |}.
Proof.
  intros [? ?] [? ?]; destruct res_wf as [? ?].
  unfold block_of, resource_size, phys, offset, region_size in *.
  rewrite !(wrap_u32 (phys_w P)), !u32_small; [reflexivity|lia..].
Qed.

Lemma block_of_bounded (c : resource) :
  wf_resource P c -> inside res c -> bounded N (blk c).
Proof.
  intros Hc Hi; rewrite block_of_small by assumption.
  destruct Hc as [? ?], Hi as [? ?].
  unfold bounded, offset, region_size; simpl; lia.
Qed.

Lemma in_block_of (c : resource) (x : Z) :
  wf_resource P c -> inside res c ->
  in_block (blk c) x = in_resource c (res_start res + x).
Proof.
  intros Hc Hi; rewrite block_of_small by assumption.
  unfold in_block, in_resource, offset, region_size; simpl.
  destruct (Z.leb_spec (res_start c - res_start res) x),
           (Z.leb_spec (res_start c) (res_start res + x)),
           (Z.ltb_spec x (res_start c - res_start res
                            + (res_end c - res_start c + 1))),
           (Z.leb_spec (res_start res + x) (res_end c));
    simpl; reflexivity || lia.
Qed.

Lemma blocks_bounded (rs : list resource) :
  Forall (wf_resource P) rs -> Forall (inside res) rs ->
  Forall (bounded N) (map blk rs ++ [marker]).
Proof.
  intros Hw Hi; apply Forall_app; split.
  - apply Forall_map; rewrite Forall_forall in *.
    intros c Hc; apply block_of_bounded; auto.
  - constructor; [|constructor].
    rewrite marker_small; destruct res_wf as [? ?].
    unfold bounded, region_size in *; simpl; lia.
Qed.

Lemma gap_chunk_small (b : sram_reserve) (f : frame) :
  bounded N b -> 0 <= cur_start f < start b ->
  chunk_phys (gap_chunk P sram res f b) = res_start res + cur_start f /\
  chunk_size (gap_chunk P sram res f b) = start b - cur_start f.
Proof.
  intros (? & ? & ?) ?; destruct res_wf as [? ?]; unfold region_size in *.
  unfold gap_chunk, phys, ulong; simpl.
  rewrite wrap_small by lia.
  now rewrite wrap_u32 by lia.
Qed.

(** *** The second loop as a whole *)

Ltac cases_ind :=
  repeat match goal with
    | |- context [?a <=? ?b] => destruct (Z.leb_spec a b)
    | |- context [?a <? ?b] => destruct (Z.ltb_spec a b)
    end; simpl; try reflexivity; try lia.

(** A scan that reaches its end has tiled the offsets it went over. *)
Lemma scan_next_tiles (l : list sram_reserve) (f f' : frame) :
  Forall (bounded N) l -> 0 <= cur_start f ->
  for_each sbody l f = next f' ->
  exists new,
    chunks (fpool f') = chunks (fpool f) ++ new /\
    tiles res (cur_start f) (cur_start f') l new /\
    trace f' = trace f /\
    cur_start f' <= Z.max (cur_start f) N /\
    (In {| start := N; size := 0 |} l -> N <= cur_start f') /\
    (ret f = 0 -> ret f' = 0).
Proof.
  revert f; induction l as [|b l IH]; intros f Hb Hc E.
  - simpl in E; inversion E; subst f'.
    exists []; rewrite app_nil_r.
    repeat split; try reflexivity; try lia; try constructor;
      try (simpl; tauto).
    intro x; simpl; cases_ind.
  - inversion Hb as [|? ? Hb1 Hbl]; subst.
    pose proof Hb1 as (B1 & B2 & B3).
    cbn [for_each] in E.
    destruct (Z.lt_trichotomy (start b) (cur_start f)) as [H|[H|H]].
    + rewrite scan_body_lt in E by assumption; discriminate.
    + rewrite scan_body_eq in E by assumption.
      rewrite u32_small in E by lia.
      match type of E with
      | for_each _ _ ?g = _ =>
          destruct (IH g Hbl ltac:(simpl; lia) E)
            as (new & Ek & (T1 & T2 & T3 & T4) & Et & Em & Ei & Er)
      end.
      simpl in *.
      exists new; repeat split; try assumption; try lia.
      * intro x; rewrite hits_cons, <- Nat.add_assoc, T2.
        unfold in_block; cases_ind.
      * eapply Forall_impl; [|exact T3].
        unfold chunk_within; intros k (? & ? & ?); lia.
      * intros [Hm|Hm]; [subst b; simpl in *; lia|auto].
    + rewrite scan_body_gt in E by assumption.
      destruct (room (fpool f)) as [|n]; [discriminate|].
      rewrite u32_small in E by lia.
      match type of E with
      | for_each _ _ ?g = _ =>
          destruct (IH g Hbl ltac:(simpl; lia) E)
            as (new & Ek & (T1 & T2 & T3 & T4) & Et & Em & Ei & Er)
      end.
      simpl in *.
      destruct (gap_chunk_small b f Hb1 ltac:(lia)) as [Gp Gs].
      exists (gap_chunk P sram res f b :: new).
      rewrite <- app_assoc in Ek.
      repeat split; try assumption; try lia; auto.
      * intro x; rewrite !hits_cons.
        replace (((if in_block b x then 1 else 0) + hits in_block l x +
                  ((if in_chunk (gap_chunk P sram res f b)
                          (res_start res + x) then 1 else 0) +
                   hits in_chunk new (res_start res + x)))%nat)
          with ((if in_block b x then 1 else 0) +
                (if in_chunk (gap_chunk P sram res f b)
                       (res_start res + x) then 1 else 0) +
                (hits in_block l x +
                 hits in_chunk new (res_start res + x)))%nat by lia.
        rewrite T2; unfold in_block, in_chunk; rewrite Gp, Gs; cases_ind.
      * constructor.
        -- unfold chunk_within; lia.
        -- eapply Forall_impl; [|exact T3].
           unfold chunk_within; intros k (? & ? & ?); lia.
      * constructor; [assumption|].
        eapply Forall_impl; [|exact T3].
        unfold chunk_within, chunk_before; intros k (? & ? & ?); lia.
      * intros [Hm|Hm]; [subst b; simpl in *; lia|auto].
Qed.

(** The running offset never goes back and stays in the region. *)
Lemma scan_next_visited (l : list sram_reserve) (f f' : frame) :
  Forall (bounded N) l -> 0 <= cur_start f ->
  for_each sbody l f = next f' ->
  StronglySorted cursor_le (visited sbody l f) /\
  Forall (fun g => cur_start f <= cur_start g <= Z.max (cur_start f) N)
         (visited sbody l f).
Proof.
  revert f; induction l as [|b l IH]; intros f Hb Hc E.
  - simpl; split; repeat constructor; lia.
  - inversion Hb as [|? ? (B1 & B2 & B3) Hbl]; subst.
    cbn [for_each visited] in *.
    destruct (sbody b f) as [f1|f1] eqn:E1; [|discriminate].
    assert (C1 : cur_start f <= start b /\ cur_start f1 = start b + size b).
    { destruct (Z.lt_trichotomy (start b) (cur_start f)) as [H|[H|H]].
      - rewrite scan_body_lt in E1 by assumption; discriminate.
      - rewrite scan_body_eq, u32_small in E1 by lia.
        inversion E1; simpl; lia.
      - rewrite scan_body_gt, u32_small in E1 by lia.
        destruct (room (fpool f)); inversion E1; simpl; lia. }
    destruct (IH f1 Hbl ltac:(lia) E) as [S F].
    split.
    + constructor; [assumption|].
      eapply Forall_impl; [|exact F]; unfold cursor_le; simpl; intros; lia.
    + constructor; [lia|].
      eapply Forall_impl; [|exact F]; simpl; intros; lia.
Qed.

End ReserveFacts.

Section ScanOutcome.

Variable P : platform.
Variable sram : sram_dev.
Variable res : resource.

Local Abbreviation sbody := (scan_body P sram res).

(** With room for every chunk, a scan that stops short has met a block
    that starts before the running offset. *)
Lemma scan_err_overlap (l : list sram_reserve) (f f' : frame) :
  (length l <= room (fpool f))%nat ->
  for_each sbody l f = err_chunks f' ->
  ret f' = - EINVAL /\
  exists s c, s < c /\
    trace f' = trace f ++ [dev_err (block_starts_after s c)].
Proof.
  revert f; induction l as [|b l IH]; intros f Hr E; [discriminate|].
  cbn [for_each] in E; simpl in Hr.
  destruct (Z.lt_trichotomy (start b) (cur_start f)) as [H|[H|H]].
  - rewrite scan_body_lt in E by assumption; inversion E; simpl.
    split; [reflexivity|]; now exists (start b), (cur_start f).
  - rewrite scan_body_eq in E by assumption.
    apply IH in E; [exact E|simpl; lia].
  - rewrite scan_body_gt in E by assumption.
    destruct (room (fpool f)) as [|n] eqn:R; [lia|].
    apply IH in E; [exact E|simpl; lia].
Qed.

(** What the function returns follows the flow of [reserve_frame]. *)
Lemma reserve_inside (rs : list resource) :
  Forall (inside res) rs ->
  reserve_frame P sram res (map resolved rs) =
  for_each sbody (sorted_blocks P res rs) (scan_entry P sram res rs).
Proof.
  intro H; unfold reserve_frame; rewrite collect_inside by assumption.
  reflexivity.
Qed.

Lemma scan_entry_fields (rs : list resource) :
  cur_start (scan_entry P sram res rs) = 0 /\
  ret (scan_entry P sram res rs) = 0 /\
  fpool (scan_entry P sram res rs) = pool sram /\
  trace (scan_entry P sram res rs) = [].
Proof. now unfold scan_entry, prepare. Qed.

Lemma sorted_blocks_perm (rs : list resource) :
  Permutation (sorted_blocks P res rs)
              (map (block_of P res) rs ++ [end_marker P res]).
Proof. apply list_sort_perm. Qed.

(** A run that returns 0 went through both loops to their end. *)
Lemma accepted_next (k : bool) (rs : list resource) :
  out_ret (sram_reserve_regions P sram res k (map resolved rs)) = 0 ->
  k = true /\ Forall (inside res) rs /\
  exists f',
    for_each sbody (sorted_blocks P res rs) (scan_entry P sram res rs)
    = next f' /\
    sram_reserve_regions P sram res k (map resolved rs) =
    {| out_ret := ret f'; out_pool := fpool f'; out_trace := trace f' |}.
Proof.
  unfold sram_reserve_regions; destruct k; simpl;
    [|unfold ENOMEM; intro; lia].
  destruct (inside_dec res rs) as [Hi|Hn].
  - rewrite reserve_inside by assumption.
    destruct (for_each _ _ _) as [f'|f'] eqn:E; simpl; intro Hr.
    + repeat split; [assumption|]. exists f'; split; reflexivity.
    + apply scan_err in E; lia.
  - unfold reserve_frame.
    destruct (collect_outside P sram res rs Hn) as (f' & E & R & _).
    rewrite E; simpl; rewrite R; unfold EINVAL; intro; lia.
Qed.

End ScanOutcome.

(** * Accepted runs *)

Section Accepted.

Variable P : platform.
Variable sram : sram_dev.
Variable res : resource.
Hypothesis res_wf : wf_resource P res.
Hypothesis res_small : region_size res < 2 ^ 32.

Local Abbreviation N := (region_size res).

Lemma sorted_blocks_bounded (rs : list resource) :
  Forall (wf_resource P) rs -> Forall (inside res) rs ->
  Forall (bounded N) (sorted_blocks P res rs).
Proof.
  intros Hw Hi.
  apply (Permutation_Forall (Permutation_sym (sorted_blocks_perm P res rs))).
  now apply blocks_bounded.
Qed.

Lemma marker_in_sorted (rs : list resource) :
  In {| start := N; size := 0 |} (sorted_blocks P res rs).
Proof.
  apply (Permutation_in _ (Permutation_sym (sorted_blocks_perm P res rs))).
  apply in_or_app; right; left; now apply marker_small.
Qed.

(** The blocks cover the offsets the reserved ranges cover. *)
Lemma hits_sorted_blocks (rs : list resource) (x : Z) :
  Forall (wf_resource P) rs -> Forall (inside res) rs ->
  hits in_block (sorted_blocks P res rs) x =
  hits in_resource rs (res_start res + x).
Proof.
  intros Hw Hi.
  rewrite (hits_perm _ _ _ _ (sorted_blocks_perm P res rs)), hits_app.
  rewrite marker_small by assumption.
  rewrite (hits_map in_block _ in_resource rs x (res_start res + x)).
  - unfold hits at 2, in_block; simpl.
    destruct (Z.leb_spec N x), (Z.ltb_spec x (N + 0)); simpl; lia.
  - rewrite Forall_forall in *; intros; apply in_block_of; auto.
Qed.

(** A run that returns 0 has printed nothing and has added chunks that,
    with the blocks, tile the region from offset 0 to its size. *)
Lemma accepted_tiles (k : bool) (rs : list resource) :
  Forall (wf_resource P) rs ->
  out_ret (sram_reserve_regions P sram res k (map resolved rs)) = 0 ->
  Forall (inside res) rs /\
  exists f' new,
    for_each (scan_body P sram res) (sorted_blocks P res rs)
             (scan_entry P sram res rs) = next f' /\
    out_pool (sram_reserve_regions P sram res k (map resolved rs)) = fpool f' /\
    out_trace (sram_reserve_regions P sram res k (map resolved rs)) = [] /\
    chunks (fpool f') = chunks (pool sram) ++ new /\
    tiles res 0 N (sorted_blocks P res rs) new.
Proof.
  intros Hw Hr.
  destruct (accepted_next P sram res k rs Hr) as (_ & Hi & f' & E & Eo).
  split; [assumption|].
  destruct (scan_entry_fields P sram res rs) as (C0 & R0 & P0 & T0).
  assert (H0 : 0 <= cur_start (scan_entry P sram res rs)) by lia.
  destruct (scan_next_tiles P sram res res_wf res_small _ _ _
              (sorted_blocks_bounded rs Hw Hi) H0 E)
    as (new & Ek & T & Et & Em & Ei & _).
  exists f', new; rewrite Eo; simpl.
  rewrite C0 in *; rewrite P0 in Ek.
  specialize (Ei (marker_in_sorted rs)).
  assert (0 <= N) by (destruct res_wf; unfold region_size; lia).
  replace N with (cur_start f') by lia.
  split; [exact E|]; split; [reflexivity|]; split; [congruence|].
  split; [assumption|]; exact T.
Qed.

End Accepted.

(** * The claims *)

Ltac by_eval := cbv; repeat split; try discriminate; try reflexivity.

(** The scenarios of the specification, on a region of 0x10000 bytes: the
    return value and the free spans registered. *)
Example spec_scenarios :
  let run rs :=
    let o := sram_reserve_regions Sample.lp64 Sample.dev Sample.region true
               (map resolved rs) in
    (out_ret o, free_spans Sample.region (out_pool o), out_trace o) in
  run [] = (0, [(0, 0x10000)], []) /\
  run [Sample.child 0x4000 0x1000] =
    (0, [(0, 0x4000); (0x5000, 0xb000)], []) /\
  run [Sample.child 0 0x1000; Sample.child 0x1000 0x1000] =
    (0, [(0x2000, 0xe000)], []) /\
  run [Sample.child 0x1000 0x1000; Sample.child 0x1800 0x1000] =
    (- EINVAL, [(0, 0x1000)],
     [dev_err (block_starts_after 0x1800 0x2000)]) /\
  run [Sample.child 0xf000 0x2000] =
    (- EINVAL, [], [dev_err reserved_block_outside]) /\
  run [Sample.child 0x8000 0x1000; Sample.child 0x2000 0x1000] =
    (0, [(0, 0x2000); (0x3000, 0x5000); (0x9000, 0x7000)], []).
Proof. by_eval. Qed.

Lemma chunks_ascending (l : list gen_pool_chunk) (lo hi : Z) :
  Forall (chunk_within lo hi) l -> StronglySorted chunk_before l ->
  StronglySorted (fun k1 k2 => chunk_phys k1 < chunk_phys k2) l.
Proof.
  induction 2 as [|k l S IH F]; constructor.
  - apply IH; now inversion H.
  - inversion H as [|? ? (? & ? & ?) ?]; subst.
    eapply Forall_impl; [|exact F]; unfold chunk_before; intros; lia.
Qed.

(** C1 (amended): for a region smaller than 2^32 bytes and every list of
    reserved ranges, each of them a range whose last address is not below
    its first address less one, for which [sram_reserve_regions] returns 0
    on a fresh pool, every address belongs to exactly one reserved range or
    one registered chunk when it lies in the region, and to none of them
    otherwise: reserved ranges and free spans partition the region. *)
Theorem reserved_and_free_partition
    (P : platform) (sram : sram_dev) (res : resource)
    (k : bool) (rs : list resource) :
  wf_resource P res -> region_size res < 2 ^ 32 ->
  Forall (wf_resource P) rs -> chunks (pool sram) = [] ->
  out_ret (sram_reserve_regions P sram res k (map resolved rs)) = 0 ->
  forall a,
    (hits in_resource rs a +
     hits in_chunk
       (chunks (out_pool (sram_reserve_regions P sram res k (map resolved rs))))
       a)%nat
    = if (res_start res <=? a) && (a <=? res_end res) then 1%nat else 0%nat.
Proof.
  intros Hres Hsmall Hw Hfresh Hr a.
  destruct (accepted_tiles P sram res Hres Hsmall k rs Hw Hr)
    as (Hi & f' & new & _ & Ep & _ & Ek & (_ & T & _ & _)).
  rewrite Ep, Ek, Hfresh; simpl app.
  specialize (T (a - res_start res)).
  rewrite (hits_sorted_blocks P res Hres Hsmall) in T by assumption.
  replace (res_start res + (a - res_start res)) with a in T by lia.
  rewrite T; unfold region_size.
  destruct (Z.leb_spec 0 (a - res_start res)),
           (Z.ltb_spec (a - res_start res) (res_end res - res_start res + 1)),
           (Z.leb_spec (res_start res) a), (Z.leb_spec a (res_end res));
    simpl; reflexivity || lia.
Qed.

Lemma reserved_and_free_partition_witness :
  wf_resource Sample.lp64 Sample.region /\
  region_size Sample.region < 2 ^ 32 /\
  Forall (wf_resource Sample.lp64) [Sample.child 0x4000 0x1000] /\
  chunks (pool Sample.dev) = [] /\
  out_ret (sram_reserve_regions Sample.lp64 Sample.dev Sample.region true
             (map resolved [Sample.child 0x4000 0x1000])) = 0 /\
  forall a,
    (hits in_resource [Sample.child 0x4000 0x1000] a +
     hits in_chunk
       (chunks (out_pool (sram_reserve_regions Sample.lp64 Sample.dev
                            Sample.region true
                            (map resolved [Sample.child 0x4000 0x1000]))))
       a)%nat
    = if (res_start Sample.region <=? a) && (a <=? res_end Sample.region)
      then 1%nat else 0%nat.
Proof.
  assert (H1 : wf_resource Sample.lp64 Sample.region) by by_eval.
  assert (H2 : region_size Sample.region < 2 ^ 32) by by_eval.
  assert (H3 : Forall (wf_resource Sample.lp64) [Sample.child 0x4000 0x1000])
    by (repeat constructor; by_eval).
  assert (H4 : chunks (pool Sample.dev) = []) by reflexivity.
  assert (H5 : out_ret (sram_reserve_regions Sample.lp64 Sample.dev
                          Sample.region true
                          (map resolved [Sample.child 0x4000 0x1000])) = 0)
    by reflexivity.
  exact (conj H1 (conj H2 (conj H3 (conj H4 (conj H5
           (reserved_and_free_partition _ _ _ _ _ H1 H2 H3 H4 H5)))))).
Defined.

(** C1 as stated fails on a region of 4 GiB plus one page with no reserved
    range: the run is accepted, and the address 0x1000 of the region is in
    no reserved range and in no registered chunk. *)
Lemma partition_gap_in_huge_region :
  wf_resource Sample.lp64 Sample.huge /\
  out_ret (sram_reserve_regions Sample.lp64 Sample.dev Sample.huge true
             (map resolved [])) = 0 /\
  res_start Sample.huge <= 0x1000 <= res_end Sample.huge /\
  (hits in_resource [] 0x1000 +
   hits in_chunk
     (chunks (out_pool (sram_reserve_regions Sample.lp64 Sample.dev
                          Sample.huge true (map resolved []))))
     0x1000)%nat = 0%nat.
Proof. by_eval. Qed.

(** C10 (amended): for a region smaller than 2^32 bytes and every accepted
    run on a fresh pool over reserved ranges whose last address is not
    below their first address less one, the running offset never decreases
    from one iteration of the scan to the next and stays between 0 and the
    size of the region; every registered chunk is not empty and lies in the
    region; the chunks are pairwise disjoint, each ending before the next
    starts, and their starts strictly ascend. *)
Theorem scan_offsets_and_chunks
    (P : platform) (sram : sram_dev) (res : resource)
    (k : bool) (rs : list resource) :
  wf_resource P res -> region_size res < 2 ^ 32 ->
  Forall (wf_resource P) rs -> chunks (pool sram) = [] ->
  out_ret (sram_reserve_regions P sram res k (map resolved rs)) = 0 ->
  let fs := visited (scan_body P sram res) (sorted_blocks P res rs)
              (scan_entry P sram res rs) in
  let ks := chunks (out_pool
              (sram_reserve_regions P sram res k (map resolved rs))) in
  StronglySorted cursor_le fs /\
  Forall (fun g => 0 <= cur_start g <= region_size res) fs /\
  Forall (chunk_within (res_start res) (res_start res + region_size res)) ks /\
  StronglySorted chunk_before ks /\
  StronglySorted (fun k1 k2 => chunk_phys k1 < chunk_phys k2) ks.
Proof.
  intros Hres Hsmall Hw Hfresh Hr fs ks.
  destruct (accepted_tiles P sram res Hres Hsmall k rs Hw Hr)
    as (Hi & f' & new & E & Ep & _ & Ek & (_ & _ & Tw & Ts)).
  destruct (scan_entry_fields P sram res rs) as (C0 & _).
  assert (H0 : 0 <= cur_start (scan_entry P sram res rs)) by lia.
  destruct (scan_next_visited P sram res Hsmall _ _ _
              (sorted_blocks_bounded P res Hres Hsmall rs Hw Hi) H0 E)
    as [Sv Fv].
  assert (0 <= region_size res)
    by (destruct Hres; unfold region_size; lia).
  assert (Eks : ks = new)
    by (unfold ks; now rewrite Ep, Ek, Hfresh).
  rewrite Eks, Z.add_0_r in *.
  repeat split; try assumption.
  - eapply Forall_impl; [|exact Fv]; simpl; intros g Hg.
    lia.
  - eapply chunks_ascending; eassumption.
Qed.

Lemma scan_offsets_and_chunks_witness :
  wf_resource Sample.lp64 Sample.region /\
  region_size Sample.region < 2 ^ 32 /\
  Forall (wf_resource Sample.lp64)
         [Sample.child 0x8000 0x1000; Sample.child 0x2000 0x1000] /\
  chunks (pool Sample.dev) = [] /\
  out_ret (sram_reserve_regions Sample.lp64 Sample.dev Sample.region true
             (map resolved [Sample.child 0x8000 0x1000;
                            Sample.child 0x2000 0x1000])) = 0 /\
  let fs := visited (scan_body Sample.lp64 Sample.dev Sample.region)
              (sorted_blocks Sample.lp64 Sample.region
                 [Sample.child 0x8000 0x1000; Sample.child 0x2000 0x1000])
              (scan_entry Sample.lp64 Sample.dev Sample.region
                 [Sample.child 0x8000 0x1000; Sample.child 0x2000 0x1000]) in
  let ks := chunks (out_pool
              (sram_reserve_regions Sample.lp64 Sample.dev Sample.region true
                 (map resolved [Sample.child 0x8000 0x1000;
                                Sample.child 0x2000 0x1000]))) in
  StronglySorted cursor_le fs /\
  Forall (fun g => 0 <= cur_start g <= region_size Sample.region) fs /\
  Forall (chunk_within (res_start Sample.region)
            (res_start Sample.region + region_size Sample.region)) ks /\
  StronglySorted chunk_before ks /\
  StronglySorted (fun k1 k2 => chunk_phys k1 < chunk_phys k2) ks.
Proof.
  assert (H1 : wf_resource Sample.lp64 Sample.region) by by_eval.
  assert (H2 : region_size Sample.region < 2 ^ 32) by by_eval.
  assert (H3 : Forall (wf_resource Sample.lp64)
                 [Sample.child 0x8000 0x1000; Sample.child 0x2000 0x1000])
    by (repeat constructor; by_eval).
  assert (H4 : chunks (pool Sample.dev) = []) by reflexivity.
  assert (H5 : out_ret (sram_reserve_regions Sample.lp64 Sample.dev
                          Sample.region true
                          (map resolved [Sample.child 0x8000 0x1000;
                                         Sample.child 0x2000 0x1000])) = 0)
    by reflexivity.
  exact (conj H1 (conj H2 (conj H3 (conj H4 (conj H5
           (scan_offsets_and_chunks _ _ _ _ _ H1 H2 H3 H4 H5)))))).
Defined.

(** C10 as stated fails on a region of 8 GiB and 32 bytes with one reserved
    range across the 4 GiB boundary: the run is accepted and two chunks are
    registered that both hold the address 16. *)
Lemma chunks_overlap_in_wide_region :
  wf_resource Sample.lp64 Sample.wide /\
  wf_resource Sample.lp64 Sample.straddle /\
  inside Sample.wide Sample.straddle /\
  out_ret (sram_reserve_regions Sample.lp64 Sample.dev Sample.wide true
             (map resolved [Sample.straddle])) = 0 /\
  exists k1 k2,
    chunks (out_pool (sram_reserve_regions Sample.lp64 Sample.dev Sample.wide
                        true (map resolved [Sample.straddle]))) = [k1; k2] /\
    in_chunk k1 16 = true /\ in_chunk k2 16 = true /\
    ~ chunk_before k1 k2.
Proof.
  repeat (split; [by_eval|]).
  do 2 eexists; split; [reflexivity|]; by_eval.
  intro H; apply H; reflexivity.
Qed.

(** C5 (amended): for a region of more than 0 and less than 2^32 bytes, the
    run without children on a fresh pool with room for a chunk returns 0,
    prints nothing and registers exactly one chunk: the whole region, that
    is the free span of offset 0 and of the size of the region. *)
Theorem no_children_whole_region
    (P : platform) (sram : sram_dev) (res : resource) :
  wf_resource P res -> 0 < region_size res < 2 ^ 32 ->
  chunks (pool sram) = [] -> room (pool sram) <> O ->
  let o := sram_reserve_regions P sram res true [] in
  out_ret o = 0 /\ out_trace o = [] /\
  chunks (out_pool o) =
    [{| chunk_virt := ulong P (virt_base sram);
        chunk_phys := res_start res;
        chunk_size := region_size res;
        chunk_avail := region_size res |}] /\
  free_spans res (out_pool o) = [(0, region_size res)].
Proof.
  intros Hres [Hpos Hsmall] Hfresh Hroom o.
  assert (Eo : o = {| out_ret := 0;
                      out_pool :=
                        {| chunks :=
                             [{| chunk_virt := ulong P (virt_base sram);
                                 chunk_phys := res_start res;
                                 chunk_size := region_size res;
                                 chunk_avail := region_size res |}];
                           room := pred (room (pool sram)) |};
                      out_trace := [] |}).
  { unfold o, sram_reserve_regions.
    change (@nil of_child) with (map resolved []).
    rewrite (reserve_inside P sram res [] (Forall_nil _)).
    change (sorted_blocks P res []) with [end_marker P res].
    rewrite (marker_small P res Hres Hsmall).
    cbn [for_each]; rewrite scan_body_gt by (simpl; lia).
    replace (fpool (scan_entry P sram res [])) with (pool sram) by reflexivity.
    destruct (room (pool sram)) as [|n]; [easy|].
    destruct Hres as [? ?]; unfold region_size in *.
    unfold gap_chunk, phys, ulong; simpl; rewrite Hfresh; simpl.
    rewrite !Z.add_0_r, !Z.sub_0_r.
    rewrite (wrap_small (phys_w P)) by lia.
    rewrite !(wrap_u32 (ulong_w P) (res_end res - res_start res + 1)) by lia.
    reflexivity. }
  rewrite Eo; unfold free_spans, span_of; simpl.
  repeat split; f_equal; f_equal; lia.
Qed.

Lemma no_children_whole_region_witness :
  wf_resource Sample.ilp32 Sample.region /\
  0 < region_size Sample.region < 2 ^ 32 /\
  chunks (pool Sample.dev) = [] /\ room (pool Sample.dev) <> O /\
  let o := sram_reserve_regions Sample.ilp32 Sample.dev Sample.region true []
  in
  out_ret o = 0 /\ out_trace o = [] /\
  chunks (out_pool o) =
    [{| chunk_virt := ulong Sample.ilp32 (virt_base Sample.dev);
        chunk_phys := res_start Sample.region;
        chunk_size := region_size Sample.region;
        chunk_avail := region_size Sample.region |}] /\
  free_spans Sample.region (out_pool o) = [(0, region_size Sample.region)].
Proof.
  assert (H1 : wf_resource Sample.ilp32 Sample.region) by by_eval.
  assert (H2 : 0 < region_size Sample.region < 2 ^ 32) by by_eval.
  assert (H3 : chunks (pool Sample.dev) = []) by reflexivity.
  assert (H4 : room (pool Sample.dev) <> O) by discriminate.
  exact (conj H1 (conj H2 (conj H3 (conj H4
           (no_children_whole_region _ _ _ H1 H2 H3 H4))))).
Defined.

(** C5 as stated fails on a region of exactly 4 GiB: its size is positive,
    the run without children is accepted, and no chunk is registered. *)
Lemma no_children_four_gib_no_span :
  wf_resource Sample.lp64 Sample.four_gib /\
  0 < region_size Sample.four_gib /\
  resource_size Sample.lp64 Sample.four_gib = region_size Sample.four_gib /\
  out_ret (sram_reserve_regions Sample.lp64 Sample.dev Sample.four_gib
             true []) = 0 /\
  free_spans Sample.four_gib
    (out_pool (sram_reserve_regions Sample.lp64 Sample.dev Sample.four_gib
                 true [])) = [].
Proof. by_eval. Qed.

(** [sram_probe] publishes no device data when [sram_reserve_regions]
    cannot return 0 on the children of the device. *)
Lemma probe_rejects (P : platform) (env : services) (pdev : platform_device)
      (res : resource) :
  mem_resource pdev = Some res ->
  (forall sram k,
      out_ret (sram_reserve_regions P sram res k (of_children pdev)) <> 0) ->
  drvdata (sram_probe P env pdev) = None.
Proof.
  intros Hm Hn; unfold sram_probe; rewrite Hm.
  destruct (kzalloc_ok env), (request_ok env); simpl; try reflexivity.
  destruct (ioremap_wc env); [|reflexivity].
  destruct (pool_create env); [|reflexivity].
  match goal with
  | |- context [negb (out_ret ?o =? 0)] =>
      destruct (Z.eqb_spec (out_ret o) 0) as [E|E]
  end; [now apply Hn in E|reflexivity].
Qed.

(** C3, at the failing input: in the region of 0x10000 bytes at 0x20000000,
    on a platform with 32-bit addresses, the child that starts at offset
    0x20000 with a size of 0xfffe0080 bytes has its last address wrapped to
    0x2000007f.  It passes the bounds test of the first loop, although its
    start lies beyond the region and its start plus its size exceeds the
    size of the region; the run returns 0 without a diagnostic, and the
    0x10000 bytes that follow the region are registered as a free span.
    A child of the same kind inside the region, at offset 0x100 with its
    last address at offset 0x7f, is accepted too, and the two spans
    registered for it overlap. *)
Theorem wrapped_child_passes_bounds_test :
  wrap W32 (res_start SampleWrapped.beyond + 0xfffe0080 - 1)
  = res_end SampleWrapped.beyond /\
  child_passes Sample.region (resolved SampleWrapped.beyond) = true /\
  block_of Sample.ilp32 Sample.region SampleWrapped.beyond
  = {| start := 0x20000; size := 0xfffe0080 |} /\
  region_size Sample.region < 0x20000 /\
  region_size Sample.region < 0x20000 + 0xfffe0080 /\
  sram_reserve_regions Sample.ilp32 Sample.dev Sample.region true
    (map resolved [SampleWrapped.beyond])
  = {| out_ret := 0;
       out_pool :=
         {| chunks :=
              [{| chunk_virt := 0xf0000000; chunk_phys := 0x20000000;
                  chunk_size := 0x10000; chunk_avail := 0x10000 |};
               {| chunk_virt := 0xf0010000; chunk_phys := 0x20010000;
                  chunk_size := 0x10000; chunk_avail := 0x10000 |}];
            room := 6 |};
       out_trace := [] |} /\
  out_ret (sram_reserve_regions Sample.ilp32 Sample.dev Sample.region true
             (map resolved [SampleWrapped.within])) = 0 /\
  free_spans Sample.region
    (out_pool (sram_reserve_regions Sample.ilp32 Sample.dev Sample.region
                 true (map resolved [SampleWrapped.within])))
  = [(0, 0x100); (0x80, 0xff80)].
Proof. by_eval. Qed.

(** Two reserved ranges that intersect keep a run from returning 0 in a
    region smaller than 2^32 bytes, in whatever order the children come. *)
Lemma overlap_not_accepted
      (P : platform) (sram : sram_dev) (res : resource) (k : bool)
      (rs others : list resource) (a b : resource) :
  wf_resource P res -> region_size res < 2 ^ 32 ->
  Forall (wf_resource P) rs ->
  Permutation rs (a :: b :: others) -> intersect a b ->
  out_ret (sram_reserve_regions P sram res k (map resolved rs)) <> 0.
Proof.
  intros Hres Hsmall Hw Hp (x & Ha & Hb) Hr.
  destruct (accepted_tiles P sram res Hres Hsmall k rs Hw Hr)
    as (Hi & f' & new & _ & _ & _ & _ & (_ & T & _ & _)).
  specialize (T (x - res_start res)).
  rewrite (hits_sorted_blocks P res Hres Hsmall) in T by assumption.
  replace (res_start res + (x - res_start res)) with x in T by lia.
  rewrite (hits_perm _ _ _ x Hp), !hits_cons, Ha, Hb in T.
  destruct ((0 <=? x - res_start res)
            && (x - res_start res <? region_size res)); lia.
Qed.

(** C2 (amended): in a region smaller than 2^32 bytes, for a list of
    reserved ranges each of which has its last address not below its first
    address less one, two reserved ranges that intersect make
    initialization fail, for every order of the children:
    [sram_reserve_regions] does not return 0, on whatever device and
    whether or not the block array could be allocated, and [sram_probe]
    publishes no device, whatever the kernel services answer.  With the
    block array allocated and room in the pool for the chunks the return
    value is -EINVAL; when moreover every child is inside the region, the
    only diagnostic is that of a block that starts before the running
    offset. *)
Theorem overlap_rejected
    (P : platform) (res : resource)
    (rs others : list resource) (a b : resource) :
  wf_resource P res -> region_size res < 2 ^ 32 ->
  Forall (wf_resource P) rs ->
  Permutation rs (a :: b :: others) -> intersect a b ->
  (forall sram k,
     out_ret (sram_reserve_regions P sram res k (map resolved rs)) <> 0) /\
  (forall env pdev,
     mem_resource pdev = Some res -> of_children pdev = map resolved rs ->
     drvdata (sram_probe P env pdev) = None) /\
  (forall sram,
     (length rs < room (pool sram))%nat ->
     let o := sram_reserve_regions P sram res true (map resolved rs) in
     out_ret o = - EINVAL /\
     (Forall (inside res) rs ->
      exists s c, s < c /\
        out_trace o = [dev_err (block_starts_after s c)])).
Proof.
  intros Hres Hsmall Hw Hp Hab.
  assert (Hn : forall sram k,
             out_ret (sram_reserve_regions P sram res k (map resolved rs))
             <> 0)
    by (intros sram k;
        now apply (overlap_not_accepted P sram res k rs others a b)).
  split; [exact Hn|]; split.
  { intros env pdev Hm Hch; apply (probe_rejects P env pdev res Hm).
    intros sram k; rewrite Hch; apply Hn. }
  intros sram Hroom o.
  specialize (Hn sram true); fold o in Hn.
  destruct (inside_dec res rs) as [Hi|Ho].
  - assert (Ho : out_ret o = - EINVAL /\
                 exists s c, s < c /\
                   out_trace o = [dev_err (block_starts_after s c)]).
    { unfold o, sram_reserve_regions in *.
      rewrite reserve_inside in * by assumption.
      destruct (for_each _ _ _) as [f'|f'] eqn:E; simpl in Hn |- *;
        destruct (scan_entry_fields P sram res rs) as (C0 & R0 & P0 & T0).
      - exfalso; apply Hn.
        assert (H0 : 0 <= cur_start (scan_entry P sram res rs)) by lia.
        destruct (scan_next_tiles P sram res Hres Hsmall _ _ _
                    (sorted_blocks_bounded P res Hres Hsmall rs Hw Hi) H0 E)
          as (new & _ & _ & _ & _ & _ & Er); auto.
      - apply scan_err_overlap in E.
        + rewrite T0 in E; exact E.
        + rewrite P0, (Permutation_length (sorted_blocks_perm P res rs)).
          rewrite length_app, length_map; simpl; lia. }
    destruct Ho as [R T]; split; [exact R|intros _; exact T].
  - split; [|intro Hi; contradiction].
    unfold o, sram_reserve_regions, reserve_frame.
    destruct (collect_outside P sram res rs Ho) as (f' & E & R & _).
    now rewrite E.
Qed.

Lemma overlap_rejected_witness :
  wf_resource Sample.lp64 Sample.region /\
  region_size Sample.region < 2 ^ 32 /\
  Forall (wf_resource Sample.lp64)
         [Sample.child 0x1800 0x1000; Sample.child 0x1000 0x1000] /\
  Permutation [Sample.child 0x1800 0x1000; Sample.child 0x1000 0x1000]
              [Sample.child 0x1000 0x1000; Sample.child 0x1800 0x1000] /\
  intersect (Sample.child 0x1000 0x1000) (Sample.child 0x1800 0x1000) /\
  (forall sram k,
     out_ret (sram_reserve_regions Sample.lp64 sram Sample.region k
                (map resolved [Sample.child 0x1800 0x1000;
                               Sample.child 0x1000 0x1000])) <> 0) /\
  (forall env pdev,
     mem_resource pdev = Some Sample.region ->
     of_children pdev = map resolved [Sample.child 0x1800 0x1000;
                                      Sample.child 0x1000 0x1000] ->
     drvdata (sram_probe Sample.lp64 env pdev) = None) /\
  (forall sram,
     (length [Sample.child 0x1800 0x1000; Sample.child 0x1000 0x1000]
      < room (pool sram))%nat ->
     let o := sram_reserve_regions Sample.lp64 sram Sample.region true
                (map resolved [Sample.child 0x1800 0x1000;
                               Sample.child 0x1000 0x1000]) in
     out_ret o = - EINVAL /\
     (Forall (inside Sample.region)
             [Sample.child 0x1800 0x1000; Sample.child 0x1000 0x1000] ->
      exists s c, s < c /\
        out_trace o = [dev_err (block_starts_after s c)])).
Proof.
  assert (H1 : wf_resource Sample.lp64 Sample.region) by by_eval.
  assert (H2 : region_size Sample.region < 2 ^ 32) by by_eval.
  assert (H3 : Forall (wf_resource Sample.lp64)
                 [Sample.child 0x1800 0x1000; Sample.child 0x1000 0x1000])
    by (repeat constructor; by_eval).
  assert (H5 : Permutation
                 [Sample.child 0x1800 0x1000; Sample.child 0x1000 0x1000]
                 [Sample.child 0x1000 0x1000; Sample.child 0x1800 0x1000])
    by apply perm_swap.
  assert (H6 : intersect (Sample.child 0x1000 0x1000)
                         (Sample.child 0x1800 0x1000))
    by (exists 0x20001800; split; reflexivity).
  exact (conj H1 (conj H2 (conj H3 (conj H5 (conj H6
           (overlap_rejected Sample.lp64 Sample.region
              _ _ _ _ H1 H2 H3 H5 H6)))))).
Defined.

(** C2 as stated fails on a region of 8 GiB plus one page: the first 4 GiB
    and 16 bytes are reserved, and so are the 16 bytes at offset 32, which
    lie in the first range; both are inside the region, and the run returns
    0. *)
Lemma overlap_accepted_in_wide_region :
  wf_resource Sample.lp64 Sample.wide_page /\
  Forall (wf_resource Sample.lp64) [Sample.low_half; Sample.small_range] /\
  Forall (inside Sample.wide_page) [Sample.low_half; Sample.small_range] /\
  intersect Sample.low_half Sample.small_range /\
  out_ret (sram_reserve_regions Sample.lp64 Sample.dev Sample.wide_page true
             (map resolved [Sample.low_half; Sample.small_range])) = 0.
Proof.
  split; [by_eval|].
  split; [repeat constructor; by_eval|].
  split; [repeat constructor; by_eval|].
  split; [exists 0x20; split; reflexivity|reflexivity].
Qed.

(** The sorted list is ascending by start when the region is smaller than
    2^31 bytes. *)
Lemma sorted_blocks_sorted (P : platform) (res : resource)
      (rs : list resource) :
  wf_resource P res -> region_size res < 2 ^ 31 ->
  Forall (wf_resource P) rs -> Forall (inside res) rs ->
  StronglySorted (key_le start) (sorted_blocks P res rs).
Proof.
  intros Hres Hsmall Hw Hi.
  assert (Hs32 : region_size res < 2 ^ 32) by lia.
  apply (list_sort_sorted sram_reserve_cmp start
           (fun b => 0 <= start b <= region_size res)).
  - intros a b Ha Hb.
    now apply (sram_reserve_cmp_le (region_size res)).
  - eapply Forall_impl; [|apply (blocks_bounded P res Hres Hs32 rs Hw Hi)].
    intros b (? & ? & ?); lia.
Qed.

Lemma scan_entry_eq (P : platform) (sram : sram_dev) (res : resource)
      (rs : list resource) :
  scan_entry P sram res rs =
  {| blocks := sorted_blocks P res rs; cur_start := 0; ret := 0;
     fpool := pool sram; trace := [] |}.
Proof. reflexivity. Qed.

(** Blocks of the list with the same start are the same block, when
    reserved ranges with the same start have the same end. *)
Lemma blocks_same_start (P : platform) (res : resource) (rs : list resource) :
  wf_resource P res -> region_size res < 2 ^ 32 ->
  Forall (wf_resource P) rs -> Forall (inside res) rs ->
  (forall c1 c2, In c1 rs -> In c2 rs ->
                 res_start c1 = res_start c2 -> res_end c1 = res_end c2) ->
  forall a b,
    In a (sorted_blocks P res rs) -> In b (sorted_blocks P res rs) ->
    start a = start b -> a = b.
Proof.
  intros Hres Hsmall Hw Hi Hties.
  assert (Hin : forall a, In a (sorted_blocks P res rs) ->
            a = {| start := region_size res; size := 0 |} \/
            exists c, In c rs /\
              a = {| start := offset res c; size := region_size c |} /\
              offset res c + region_size c <= region_size res /\
              0 <= region_size c).
  { intros a Ha.
    apply (Permutation_in _ (sorted_blocks_perm P res rs)) in Ha.
    apply in_app_or in Ha; destruct Ha as [Ha|[Ha|[]]].
    - right; apply in_map_iff in Ha; destruct Ha as (c & <- & Hc).
      rewrite Forall_forall in Hw, Hi.
      exists c; split; [assumption|].
      split; [now apply block_of_small; auto|].
      pose proof (block_of_bounded P res Hres Hsmall c (Hw c Hc) (Hi c Hc))
        as (? & ? & ?).
      rewrite block_of_small in * by auto; simpl in *; lia.
    - left; rewrite <- Ha; now apply marker_small. }
  intros a b Ha Hb Hs.
  destruct (Hin a Ha) as [->|(c1 & Hc1 & -> & ? & ?)],
           (Hin b Hb) as [->|(c2 & Hc2 & -> & ? & ?)]; simpl in *.
  - reflexivity.
  - f_equal; lia.
  - f_equal; lia.
  - assert (res_start c1 = res_start c2) by (unfold offset in Hs; lia).
    pose proof (Hties c1 c2 Hc1 Hc2 ltac:(assumption)).
    unfold offset, region_size; f_equal; lia.
Qed.

(** When reserved ranges with the same start are the same range, the
    sorted list does not depend on the order of the children, and neither
    does anything the run leaves behind. *)
Lemma same_ties_same_outcome
    (P : platform) (sram : sram_dev) (res : resource) (k : bool)
    (rs rs' : list resource) :
  wf_resource P res -> region_size res < 2 ^ 31 ->
  Forall (wf_resource P) rs ->
  (forall c1 c2, In c1 rs -> In c2 rs ->
                 res_start c1 = res_start c2 -> res_end c1 = res_end c2) ->
  Permutation rs rs' ->
  sram_reserve_regions P sram res k (map resolved rs) =
  sram_reserve_regions P sram res k (map resolved rs').
Proof.
  intros Hres Hsmall Hw Hties Hp.
  assert (Hs32 : region_size res < 2 ^ 32) by lia.
  assert (Hw' : Forall (wf_resource P) rs')
    by (apply (Permutation_Forall Hp); assumption).
  unfold sram_reserve_regions; destruct k; [|reflexivity].
  destruct (inside_dec res rs) as [Hi|Hn].
  - assert (Hi' : Forall (inside res) rs')
      by (apply (Permutation_Forall Hp); assumption).
    rewrite !reserve_inside, !scan_entry_eq by assumption.
    assert (E : sorted_blocks P res rs = sorted_blocks P res rs');
      [|now rewrite E].
    apply (sorted_perm_unique start).
    + now apply blocks_same_start.
    + now apply sorted_blocks_sorted.
    + now apply sorted_blocks_sorted.
    + rewrite !sorted_blocks_perm.
      now apply Permutation_app_tail, Permutation_map.
  - assert (Hn' : ~ Forall (inside res) rs').
    { intro H; apply Hn.
      apply (Permutation_Forall (Permutation_sym Hp)); assumption. }
    unfold reserve_frame.
    destruct (collect_outside P sram res rs Hn) as (f1 & E1 & R1 & Q1 & T1).
    destruct (collect_outside P sram res rs' Hn') as (f2 & E2 & R2 & Q2 & T2).
    rewrite E1, E2; simpl; congruence.
Qed.

Lemma sram_reserve_eq_dec (a b : sram_reserve) : {a = b} + {a <> b}.
Proof. decide equality; apply Z.eq_dec. Qed.

Section Ties.

Variable P : platform.
Variable sram : sram_dev.
Variable res : resource.
Hypothesis res_small : region_size res < 2 ^ 32.

Local Abbreviation N := (region_size res).
Local Abbreviation sbody := (scan_body P sram res).

(** A block that takes at least one byte, followed by a block with the
    same start: the scan stops at the second one at the latest, and what it
    returns and registers depends on the start of the first only. *)
Lemma scan_tie_stops (x z : sram_reserve) (l : list sram_reserve)
      (f : frame) :
  bounded N x -> 0 < size x -> start z = start x ->
  let g := frame_of (for_each sbody (x :: z :: l) f) in
  ret g = (if start x <=? cur_start f then - EINVAL
           else match room (fpool f) with
                | O => - ENOMEM
                | S _ => - EINVAL
                end) /\
  fpool g = (if start x <=? cur_start f then fpool f
             else match room (fpool f) with
                  | O => fpool f
                  | S n => {| chunks := chunks (fpool f) ++
                                         [gap_chunk P sram res f x];
                              room := n |}
                  end).
Proof.
  intros (B1 & B2 & B3) Hpos Hz g; unfold g; clear g.
  cbn [for_each].
  destruct (Z.lt_trichotomy (start x) (cur_start f)) as [H|[H|H]].
  - rewrite scan_body_lt by assumption; simpl.
    destruct (Z.leb_spec (start x) (cur_start f)); [auto|lia].
  - rewrite scan_body_eq, u32_small by lia.
    rewrite scan_body_lt by (simpl; lia); simpl.
    destruct (Z.leb_spec (start x) (cur_start f)); [auto|lia].
  - rewrite scan_body_gt by assumption.
    destruct (Z.leb_spec (start x) (cur_start f)); [lia|].
    destruct (room (fpool f)) as [|n]; [simpl; auto|].
    rewrite u32_small by lia.
    rewrite scan_body_lt by (simpl; lia); simpl; auto.
Qed.

(** Two ascending arrangements of the same blocks give the same return
    value and the same pool, when blocks with the same start are the same
    block or take at least one byte each. *)
Lemma scan_ties (l1 l2 : list sram_reserve) (f : frame) :
  Forall (bounded N) l1 ->
  StronglySorted (key_le start) l1 -> StronglySorted (key_le start) l2 ->
  Permutation l1 l2 ->
  (forall a b, In a l1 -> In b l1 -> start a = start b ->
               a = b \/ (0 < size a /\ 0 < size b)) ->
  same_result (frame_of (for_each sbody l1 f))
              (frame_of (for_each sbody l2 f)).
Proof.
  revert l2 f; induction l1 as [|x l1 IH]; intros l2 f Hb S1 S2 Hp Ht.
  - apply Permutation_nil in Hp; subst; split; reflexivity.
  - destruct l2 as [|y l2];
      [apply Permutation_sym, Permutation_nil in Hp; discriminate|].
    inversion Hb as [|? ? Hbx Hbl]; subst.
    inversion S1 as [|? ? S1' F1]; inversion S2 as [|? ? S2' F2]; subst.
    rewrite Forall_forall in F1, F2.
    destruct (sram_reserve_eq_dec x y) as [->|Hxy].
    + apply Permutation_cons_inv in Hp.
      cbn [for_each]; destruct (sbody y f) as [f1|f1];
        [|split; reflexivity].
      apply IH; try assumption.
      intros a b Ha Hb'; apply Ht; now right.
    + assert (Hy : In y l1).
      { assert (In y (x :: l1))
          by (apply (Permutation_in _ (Permutation_sym Hp)); now left).
        destruct H as [H|H]; [congruence|assumption]. }
      assert (Hx : In x l2).
      { assert (In x (y :: l2))
          by (apply (Permutation_in _ Hp); now left).
        destruct H as [H|H]; [congruence|assumption]. }
      pose proof (F1 y Hy) as Lxy; pose proof (F2 x Hx) as Lyx.
      unfold key_le in Lxy, Lyx.
      assert (Es : start x = start y) by lia.
      destruct (Ht x y (or_introl eq_refl) (or_intror Hy) Es)
        as [E|[Px Py]]; [contradiction|].
      assert (Hby : bounded N y)
        by (rewrite Forall_forall in Hbl; now apply Hbl).
      destruct l1 as [|z l1]; [contradiction|].
      destruct l2 as [|w l2]; [contradiction|].
      assert (Ez : start z = start x).
      { pose proof (F1 z (or_introl eq_refl)) as Lz; unfold key_le in Lz.
        inversion S1' as [|? ? _ Fz]; subst; rewrite Forall_forall in Fz.
        destruct Hy as [->|Hy]; [lia|].
        specialize (Fz y Hy); unfold key_le in Fz; lia. }
      assert (Ew : start w = start y).
      { pose proof (F2 w (or_introl eq_refl)) as Lw; unfold key_le in Lw.
        inversion S2' as [|? ? _ Fw]; subst; rewrite Forall_forall in Fw.
        destruct Hx as [->|Hx]; [lia|].
        specialize (Fw x Hx); unfold key_le in Fw; lia. }
      destruct (scan_tie_stops x z l1 f Hbx Px Ez) as [R1 Q1].
      destruct (scan_tie_stops y w l2 f Hby Py Ew) as [R2 Q2].
      unfold same_result; rewrite R1, R2, Q1, Q2, Es.
      unfold gap_chunk; rewrite Es; split; reflexivity.
Qed.

(** The scan does not look at the [blocks] field of its frame. *)
Lemma scan_ignores_blocks (l bs : list sram_reserve) (f : frame) :
  same_result (frame_of (for_each sbody l (set_blocks bs f)))
              (frame_of (for_each sbody l f)).
Proof.
  revert f; induction l as [|b l IH]; intro f; [split; reflexivity|].
  cbn [for_each].
  destruct (Z.lt_trichotomy (start b) (cur_start f)) as [H|[H|H]].
  - rewrite !scan_body_lt by assumption; split; reflexivity.
  - rewrite !scan_body_eq by assumption.
    apply (IH (set_cur_start (u32 (start b + size b)) f)).
  - rewrite !scan_body_gt by assumption; cbn [fpool set_blocks].
    destruct (room (fpool f)) as [|n]; [split; reflexivity|].
    match goal with
    | |- same_result _ (frame_of (for_each _ _ ?g)) => apply (IH g)
    end.
Qed.

End Ties.

(** Blocks of the sorted list with the same start are the same block or
    take at least one byte each, when this holds of the reserved ranges. *)
Lemma blocks_ties (P : platform) (res : resource) (rs : list resource) :
  wf_resource P res -> region_size res < 2 ^ 32 ->
  Forall (wf_resource P) rs -> Forall (inside res) rs ->
  (forall c1 c2, In c1 rs -> In c2 rs ->
                 res_start c1 = res_start c2 ->
                 res_end c1 = res_end c2 \/
                 (res_start c1 <= res_end c1 /\ res_start c2 <= res_end c2)) ->
  forall a b,
    In a (sorted_blocks P res rs) -> In b (sorted_blocks P res rs) ->
    start a = start b -> a = b \/ (0 < size a /\ 0 < size b).
Proof.
  intros Hres Hsmall Hw Hi Hties.
  assert (Hin : forall a, In a (sorted_blocks P res rs) ->
            a = {| start := region_size res; size := 0 |} \/
            exists c, In c rs /\
              a = {| start := offset res c; size := region_size c |} /\
              offset res c + region_size c <= region_size res /\
              0 <= region_size c).
  { intros a Ha.
    apply (Permutation_in _ (sorted_blocks_perm P res rs)) in Ha.
    apply in_app_or in Ha; destruct Ha as [Ha|[Ha|[]]].
    - right; apply in_map_iff in Ha; destruct Ha as (c & <- & Hc).
      rewrite Forall_forall in Hw, Hi.
      exists c; split; [assumption|].
      split; [now apply block_of_small; auto|].
      pose proof (block_of_bounded P res Hres Hsmall c (Hw c Hc) (Hi c Hc))
        as (? & ? & ?).
      rewrite block_of_small in * by auto; simpl in *; lia.
    - left; rewrite <- Ha; now apply marker_small. }
  intros a b Ha Hb Hs.
  destruct (Hin a Ha) as [->|(c1 & Hc1 & -> & ? & ?)],
           (Hin b Hb) as [->|(c2 & Hc2 & -> & ? & ?)]; simpl in *.
  - left; reflexivity.
  - left; f_equal; lia.
  - left; f_equal; lia.
  - assert (Es : res_start c1 = res_start c2) by (unfold offset in Hs; lia).
    destruct (Hties c1 c2 Hc1 Hc2 Es) as [Ee|[N1 N2]].
    + left; unfold offset, region_size; f_equal; lia.
    + right; unfold region_size; lia.
Qed.

(** C4 (amended): in a region smaller than 2^31 bytes, for reserved ranges
    each of which has its last address not below its first address less
    one, when no empty reserved range has the start of another, different
    reserved range (two ranges with the same start are the same range, or
    neither is empty), every permutation of the children gives the same
    return value, hence the same acceptance or rejection, and the same
    chunks in the same order, hence the same free spans.  When ranges with
    the same start are always the same range, the diagnostics are the same
    as well. *)
Theorem order_independent
    (P : platform) (sram : sram_dev) (res : resource) (k : bool)
    (rs rs' : list resource) :
  wf_resource P res -> region_size res < 2 ^ 31 ->
  Forall (wf_resource P) rs ->
  (forall c1 c2, In c1 rs -> In c2 rs ->
                 res_start c1 = res_start c2 ->
                 res_end c1 = res_end c2 \/
                 (res_start c1 <= res_end c1 /\ res_start c2 <= res_end c2)) ->
  Permutation rs rs' ->
  let o := sram_reserve_regions P sram res k (map resolved rs) in
  let o' := sram_reserve_regions P sram res k (map resolved rs') in
  out_ret o = out_ret o' /\
  out_pool o = out_pool o' /\
  free_spans res (out_pool o) = free_spans res (out_pool o') /\
  ((forall c1 c2, In c1 rs -> In c2 rs ->
                  res_start c1 = res_start c2 -> res_end c1 = res_end c2) ->
   o = o').
Proof.
  intros Hres Hsmall Hw Hties Hp o o'.
  assert (Hs32 : region_size res < 2 ^ 32) by lia.
  assert (Hmain : out_ret o = out_ret o' /\ out_pool o = out_pool o').
  { unfold o, o', sram_reserve_regions; destruct k; [|split; reflexivity].
    destruct (inside_dec res rs) as [Hi|Hn].
    - assert (Hi' : Forall (inside res) rs')
        by (apply (Permutation_Forall Hp); assumption).
      rewrite !reserve_inside by assumption.
      change (scan_entry P sram res rs')
        with (set_blocks (sorted_blocks P res rs')
                (scan_entry P sram res rs)).
      cbn [out_ret out_pool].
      destruct (scan_ignores_blocks P sram res (sorted_blocks P res rs')
                  (sorted_blocks P res rs') (scan_entry P sram res rs))
        as [R2 Q2].
      destruct (scan_ties P sram res Hs32 (sorted_blocks P res rs)
                  (sorted_blocks P res rs') (scan_entry P sram res rs))
        as [R1 Q1].
      + now apply sorted_blocks_bounded.
      + now apply sorted_blocks_sorted.
      + apply sorted_blocks_sorted; try assumption.
        apply (Permutation_Forall Hp); assumption.
      + rewrite !sorted_blocks_perm.
        now apply Permutation_app_tail, Permutation_map.
      + now apply blocks_ties.
      + split; congruence.
    - assert (Hn' : ~ Forall (inside res) rs').
      { intro H; apply Hn.
        apply (Permutation_Forall (Permutation_sym Hp)); assumption. }
      unfold reserve_frame.
      destruct (collect_outside P sram res rs Hn) as (f1 & E1 & R1 & Q1 & T1).
      destruct (collect_outside P sram res rs' Hn')
        as (f2 & E2 & R2 & Q2 & T2).
      rewrite E1, E2; simpl; split; congruence. }
  destruct Hmain as [Hr Hq].
  split; [exact Hr|]; split; [exact Hq|]; split; [now rewrite Hq|].
  intro Hsame; now apply same_ties_same_outcome.
Qed.

Lemma order_independent_witness :
  wf_resource Sample.lp64 Sample.region /\
  region_size Sample.region < 2 ^ 31 /\
  Forall (wf_resource Sample.lp64)
         [Sample.child 0x1000 0x100; Sample.child 0x1000 0x200] /\
  (forall c1 c2,
      In c1 [Sample.child 0x1000 0x100; Sample.child 0x1000 0x200] ->
      In c2 [Sample.child 0x1000 0x100; Sample.child 0x1000 0x200] ->
      res_start c1 = res_start c2 ->
      res_end c1 = res_end c2 \/
      (res_start c1 <= res_end c1 /\ res_start c2 <= res_end c2)) /\
  Permutation [Sample.child 0x1000 0x100; Sample.child 0x1000 0x200]
              [Sample.child 0x1000 0x200; Sample.child 0x1000 0x100] /\
  let o := sram_reserve_regions Sample.lp64 Sample.dev Sample.region true
             (map resolved [Sample.child 0x1000 0x100;
                            Sample.child 0x1000 0x200]) in
  let o' := sram_reserve_regions Sample.lp64 Sample.dev Sample.region true
              (map resolved [Sample.child 0x1000 0x200;
                             Sample.child 0x1000 0x100]) in
  out_ret o = out_ret o' /\
  out_pool o = out_pool o' /\
  free_spans Sample.region (out_pool o)
  = free_spans Sample.region (out_pool o') /\
  ((forall c1 c2,
       In c1 [Sample.child 0x1000 0x100; Sample.child 0x1000 0x200] ->
       In c2 [Sample.child 0x1000 0x100; Sample.child 0x1000 0x200] ->
       res_start c1 = res_start c2 -> res_end c1 = res_end c2) ->
   o = o').
Proof.
  assert (H1 : wf_resource Sample.lp64 Sample.region) by by_eval.
  assert (H2 : region_size Sample.region < 2 ^ 31) by by_eval.
  assert (H3 : Forall (wf_resource Sample.lp64)
                 [Sample.child 0x1000 0x100; Sample.child 0x1000 0x200])
    by (repeat constructor; by_eval).
  assert (H4 : forall c1 c2,
             In c1 [Sample.child 0x1000 0x100; Sample.child 0x1000 0x200] ->
             In c2 [Sample.child 0x1000 0x100; Sample.child 0x1000 0x200] ->
             res_start c1 = res_start c2 ->
             res_end c1 = res_end c2 \/
             (res_start c1 <= res_end c1 /\ res_start c2 <= res_end c2)).
  { intros c1 c2 [<-|[<-|[]]] [<-|[<-|[]]] _; right; simpl; lia. }
  assert (H5 : Permutation
                 [Sample.child 0x1000 0x100; Sample.child 0x1000 0x200]
                 [Sample.child 0x1000 0x200; Sample.child 0x1000 0x100])
    by apply perm_swap.
  exact (conj H1 (conj H2 (conj H3 (conj H4 (conj H5
           (order_independent Sample.lp64 Sample.dev Sample.region true
              _ _ H1 H2 H3 H4 H5)))))).
Defined.

(** C4 as stated fails on two reserved ranges that start at the same
    offset, one of them empty: with the empty one first the run returns 0
    and registers two chunks, with the empty one second it returns -EINVAL
    after the first chunk. *)
Lemma order_matters_for_empty_range :
  Permutation [Sample.child 0x1000 0; Sample.child 0x1000 0x100]
              [Sample.child 0x1000 0x100; Sample.child 0x1000 0] /\
  Forall (wf_resource Sample.lp64)
         [Sample.child 0x1000 0; Sample.child 0x1000 0x100] /\
  Forall (inside Sample.region)
         [Sample.child 0x1000 0; Sample.child 0x1000 0x100] /\
  out_ret (sram_reserve_regions Sample.lp64 Sample.dev Sample.region true
             (map resolved [Sample.child 0x1000 0; Sample.child 0x1000 0x100]))
  = 0 /\
  out_ret (sram_reserve_regions Sample.lp64 Sample.dev Sample.region true
             (map resolved [Sample.child 0x1000 0x100; Sample.child 0x1000 0]))
  = - EINVAL /\
  free_spans Sample.region
    (out_pool (sram_reserve_regions Sample.lp64 Sample.dev Sample.region true
       (map resolved [Sample.child 0x1000 0; Sample.child 0x1000 0x100])))
  = [(0, 0x1000); (0x1100, 0xef00)] /\
  free_spans Sample.region
    (out_pool (sram_reserve_regions Sample.lp64 Sample.dev Sample.region true
       (map resolved [Sample.child 0x1000 0x100; Sample.child 0x1000 0])))
  = [(0, 0x1000)].
Proof.
  split; [apply perm_swap|].
  split; [repeat constructor; by_eval|].
  split; [repeat constructor; by_eval|].
  repeat split; reflexivity.
Qed.





Lemma sorted_last_max {A : Type} (R : A -> A -> Prop) (l : list A) (z : A) :
  StronglySorted R (l ++ [z]) -> Forall (fun x => R x z) l.
Proof.
  induction l as [|x l IH]; intro H; [constructor|].
  inversion H as [|? ? S F]; subst; constructor.
  - rewrite Forall_forall in F; apply F, in_or_app; right; now left.
  - now apply IH.
Qed.

(** In a region smaller than 2^31 bytes the end marker closes the sorted
    list. *)
Lemma marker_last (P : platform) (res : resource) (rs : list resource) :
  wf_resource P res -> region_size res < 2 ^ 31 ->
  Forall (wf_resource P) rs -> Forall (inside res) rs ->
  exists bs,
    sorted_blocks P res rs = bs ++ [{| start := region_size res; size := 0 |}]
    /\ Permutation bs (map (block_of P res) rs).
Proof.
  intros Hres Hsmall Hw Hi.
  assert (Hs32 : region_size res < 2 ^ 32) by lia.
  pose proof (sorted_blocks_sorted P res rs Hres Hsmall Hw Hi) as Hs.
  pose proof (sorted_blocks_bounded P res Hres Hs32 rs Hw Hi) as Hb.
  pose proof (marker_in_sorted P res Hres Hs32 rs) as Hm.
  pose proof (sorted_blocks_perm P res rs) as Hp.
  rewrite (marker_small P res Hres Hs32) in Hp.
  destruct (exists_last (l := sorted_blocks P res rs)) as (bs & z & E).
  { intro E; rewrite E in Hm; contradiction. }
  rewrite E in *.
  assert (Ez : z = {| start := region_size res; size := 0 |}).
  { apply in_app_or in Hm; destruct Hm as [Hm|[Hm|[]]]; [|now symmetry].
    apply sorted_last_max in Hs; rewrite Forall_forall in Hs.
    specialize (Hs _ Hm); unfold key_le in Hs; simpl in Hs.
    rewrite Forall_forall in Hb.
    destruct (Hb z) as (? & ? & ?); [apply in_or_app; right; now left|].
    destruct z as [zs zz]; simpl in *; f_equal; lia. }
  subst z; exists bs; split; [reflexivity|].
  now apply Permutation_app_inv_r in Hp.
Qed.

(** C7 (amended): in a region smaller than 2^31 bytes, for children inside
    the region whose last address is not below their first address less
    one: in the scan, a block that starts after the running offset has the
    gap before it registered as the chunk [gap_chunk], which starts at the
    running offset, and the running offset goes to the sum of the start and
    the size of the block computed in 32 bits (the registration failing,
    the scan stops with -ENOMEM); for a block that lies in the region the
    chunk goes from the running offset up to the start of the block and the
    running offset goes to the end of the block.  The end marker is the
    block of start the size of the region and of size 0, there is one of it
    after the blocks of the children, and the sorted list ends with it;
    scanned from a running offset below the size of the region it registers
    the span from that offset up to the end of the region, by the same
    iteration as any other block. *)
Theorem gap_registered_marker_last
    (P : platform) (sram : sram_dev) (res : resource) (rs : list resource) :
  wf_resource P res -> region_size res < 2 ^ 31 ->
  Forall (wf_resource P) rs -> Forall (inside res) rs ->
  (forall b f,
     cur_start f < start b ->
     scan_body P sram res b f =
     match room (fpool f) with
     | O => err_chunks (set_fpool (fpool f) (set_ret (- ENOMEM) f))
     | S n =>
         next (set_cur_start (u32 (start b + size b))
                 (set_fpool {| chunks := chunks (fpool f) ++
                                          [gap_chunk P sram res f b];
                               room := n |}
                    (set_ret 0 f)))
     end) /\
  (forall b f,
     bounded (region_size res) b -> 0 <= cur_start f < start b ->
     chunk_phys (gap_chunk P sram res f b) = res_start res + cur_start f /\
     chunk_size (gap_chunk P sram res f b) = start b - cur_start f /\
     u32 (start b + size b) = start b + size b) /\
  end_marker P res = {| start := region_size res; size := 0 |} /\
  (exists bs,
     sorted_blocks P res rs = bs ++ [end_marker P res] /\
     Permutation bs (map (block_of P res) rs)) /\
  (forall f n,
     0 <= cur_start f < region_size res -> room (fpool f) = S n ->
     exists f',
       scan_body P sram res (end_marker P res) f = next f' /\
       cur_start f' = region_size res /\
       chunks (fpool f') =
         chunks (fpool f) ++ [gap_chunk P sram res f (end_marker P res)] /\
       span_of res (gap_chunk P sram res f (end_marker P res)) =
         (cur_start f, region_size res - cur_start f)).
Proof.
  intros Hres Hsmall Hw Hi.
  assert (Hs32 : region_size res < 2 ^ 32) by lia.
  assert (Hpos : 0 <= region_size res)
    by (destruct Hres; unfold region_size; lia).
  pose proof (marker_small P res Hres Hs32) as Em.
  split; [intros b f H; now apply scan_body_gt|].
  split.
  { intros b f Hb Hc.
    destruct (gap_chunk_small P sram res Hres Hs32 b f Hb Hc) as [Gp Gs].
    destruct Hb as (? & ? & ?).
    repeat split; try assumption; apply u32_small; lia. }
  split; [exact Em|].
  split; [rewrite Em; now apply marker_last|].
  intros f n Hc Hroom.
  assert (Hb : bounded (region_size res) (end_marker P res))
    by (rewrite Em; unfold bounded; simpl; lia).
  assert (Hc' : 0 <= cur_start f < start (end_marker P res))
    by (rewrite Em; simpl; lia).
  destruct (gap_chunk_small P sram res Hres Hs32 _ f Hb Hc') as [Gp Gs].
  rewrite scan_body_gt, Hroom by lia.
  eexists; split; [reflexivity|].
  unfold span_of; rewrite Gp, Gs, Em; simpl.
  rewrite Z.add_0_r, u32_small by lia.
  repeat split; f_equal; lia.
Qed.

Lemma gap_registered_marker_last_witness :
  wf_resource Sample.ilp32 Sample.region /\
  region_size Sample.region < 2 ^ 31 /\
  Forall (wf_resource Sample.ilp32) [Sample.child 0x4000 0x1000] /\
  Forall (inside Sample.region) [Sample.child 0x4000 0x1000] /\
  (forall b f,
     cur_start f < start b ->
     scan_body Sample.ilp32 Sample.dev Sample.region b f =
     match room (fpool f) with
     | O => err_chunks (set_fpool (fpool f) (set_ret (- ENOMEM) f))
     | S n =>
         next (set_cur_start (u32 (start b + size b))
                 (set_fpool
                    {| chunks := chunks (fpool f) ++
                                 [gap_chunk Sample.ilp32 Sample.dev
                                    Sample.region f b];
                       room := n |}
                    (set_ret 0 f)))
     end) /\
  (forall b f,
     bounded (region_size Sample.region) b -> 0 <= cur_start f < start b ->
     chunk_phys (gap_chunk Sample.ilp32 Sample.dev Sample.region f b) =
       res_start Sample.region + cur_start f /\
     chunk_size (gap_chunk Sample.ilp32 Sample.dev Sample.region f b) =
       start b - cur_start f /\
     u32 (start b + size b) = start b + size b) /\
  end_marker Sample.ilp32 Sample.region =
    {| start := region_size Sample.region; size := 0 |} /\
  (exists bs,
     sorted_blocks Sample.ilp32 Sample.region [Sample.child 0x4000 0x1000] =
       bs ++ [end_marker Sample.ilp32 Sample.region] /\
     Permutation bs (map (block_of Sample.ilp32 Sample.region)
                         [Sample.child 0x4000 0x1000])) /\
  (forall f n,
     0 <= cur_start f < region_size Sample.region -> room (fpool f) = S n ->
     exists f',
       scan_body Sample.ilp32 Sample.dev Sample.region
         (end_marker Sample.ilp32 Sample.region) f = next f' /\
       cur_start f' = region_size Sample.region /\
       chunks (fpool f') =
         chunks (fpool f) ++
         [gap_chunk Sample.ilp32 Sample.dev Sample.region f
            (end_marker Sample.ilp32 Sample.region)] /\
       span_of Sample.region
         (gap_chunk Sample.ilp32 Sample.dev Sample.region f
            (end_marker Sample.ilp32 Sample.region)) =
         (cur_start f, region_size Sample.region - cur_start f)).
Proof.
  assert (H1 : wf_resource Sample.ilp32 Sample.region) by by_eval.
  assert (H2 : region_size Sample.region < 2 ^ 31) by by_eval.
  assert (H3 : Forall (wf_resource Sample.ilp32) [Sample.child 0x4000 0x1000])
    by (repeat constructor; by_eval).
  assert (H4 : Forall (inside Sample.region) [Sample.child 0x4000 0x1000])
    by (repeat constructor; by_eval).
  exact (conj H1 (conj H2 (conj H3 (conj H4
           (gap_registered_marker_last Sample.ilp32 Sample.dev
              Sample.region _ H1 H2 H3 H4))))).
Defined.

(** C7 as stated fails on a region of 4 GiB plus one page without reserved
    ranges: the end marker starts at offset 0x1000 and not at the size of
    the region, and the accepted run registers the first page only, no span
    up to the end of the region. *)
Lemma marker_short_in_huge_region :
  wf_resource Sample.lp64 Sample.huge /\
  region_size Sample.huge = 0x100001000 /\
  end_marker Sample.lp64 Sample.huge = {| start := 0x1000; size := 0 |} /\
  out_ret (sram_reserve_regions Sample.lp64 Sample.dev Sample.huge true [])
  = 0 /\
  free_spans Sample.huge
    (out_pool (sram_reserve_regions Sample.lp64 Sample.dev Sample.huge
                 true [])) = [(0, 0x1000)].
Proof. by_eval. Qed.

(** C8: [sram_remove] returns 0 for every device; it prints the diagnostic
    exactly when less is available in the pool than the pool holds, and
    nothing else; it disables the clock exactly when the device has one,
    outstanding allocations or not, and after the diagnostic. *)
Theorem remove_returns_success (sram : sram_dev) :
  fst (sram_remove sram) = 0 /\
  (In (dev_err removed_while_allocated) (snd (sram_remove sram)) <->
   gen_pool_avail (pool sram) < gen_pool_size (pool sram)) /\
  (forall c, In (clk_disable_unprepare c) (snd (sram_remove sram)) <->
             clk sram = Some c) /\
  snd (sram_remove sram) =
    filter (fun e => match e with dev_err _ => true | _ => false end)
           (snd (sram_remove sram))
    ++ match clk sram with
       | Some c => [clk_disable_unprepare c]
       | None => []
       end /\
  (forall e, In e (snd (sram_remove sram)) ->
             e = dev_err removed_while_allocated \/
             exists c, e = clk_disable_unprepare c).
Proof.
  unfold sram_remove; simpl.
  destruct (Z.ltb_spec (gen_pool_avail (pool sram))
                       (gen_pool_size (pool sram))) as [H|H],
           (clk sram) as [c|]; simpl;
    repeat split; try reflexivity; try lia; try tauto;
    try (intros [E|[E|[]]]; congruence || (inversion E; reflexivity));
    try (intros [E|[]]; congruence || (inversion E; reflexivity));
    try (intro E; inversion E; subst; simpl; tauto);
    try (intros e [<-|[<-|[]]]; eauto);
    try (intros e [<-|[]]; eauto);
    try discriminate; try contradiction.
Qed.

(** C9, at the failing inputs: with starts 0x80000000 and 0 the comparison
    is negative, as if the first block started before the second; with
    starts 0 and 0x80000001 it is positive.  In a region of 0x90000000 bytes
    whose first page is reserved the end marker is so sorted before the
    block of the page: the whole region is registered as one chunk, and the
    run then returns -EINVAL on a list of reserved ranges that is valid. *)
Theorem sram_reserve_cmp_wraps :
  sram_reserve_cmp {| start := 0x80000000; size := 0 |}
                   {| start := 0; size := 0 |} < 0 /\
  0 < sram_reserve_cmp {| start := 0; size := 0 |}
                       {| start := 0x80000001; size := 0 |} /\
  sorted_blocks Sample.ilp32 Sample.big [Sample.first_page] =
    [{| start := 0x90000000; size := 0 |}; {| start := 0; size := 0x1000 |}] /\
  out_ret (sram_reserve_regions Sample.ilp32 Sample.dev Sample.big true
             (map resolved [Sample.first_page])) = - EINVAL /\
  free_spans Sample.big
    (out_pool (sram_reserve_regions Sample.ilp32 Sample.dev Sample.big true
                 (map resolved [Sample.first_page]))) = [(0, 0x90000000)].
Proof. by_eval. Qed.

(** * Further properties *)

(** ** The comparison *)

(** X1: for two blocks whose starts are less than 2^31 apart, the sign of
    [sram_reserve_cmp] is the order of the starts. *)
Theorem cmp_sign_is_order (a b : sram_reserve) :
  - 2 ^ 31 < start a - start b < 2 ^ 31 ->
  (sram_reserve_cmp a b < 0 <-> start a < start b) /\
  (sram_reserve_cmp a b = 0 <-> start a = start b) /\
  (0 < sram_reserve_cmp a b <-> start b < start a).
Proof. intro H; rewrite sram_reserve_cmp_small; lia. Qed.

Lemma cmp_sign_is_order_witness :
  - 2 ^ 31 < start {| start := 0x4000; size := 0x1000 |}
             - start {| start := 0x10000; size := 0 |} < 2 ^ 31 /\
  (sram_reserve_cmp {| start := 0x4000; size := 0x1000 |}
                    {| start := 0x10000; size := 0 |} < 0 <->
   start {| start := 0x4000; size := 0x1000 |}
   < start {| start := 0x10000; size := 0 |}) /\
  (sram_reserve_cmp {| start := 0x4000; size := 0x1000 |}
                    {| start := 0x10000; size := 0 |} = 0 <->
   start {| start := 0x4000; size := 0x1000 |}
   = start {| start := 0x10000; size := 0 |}) /\
  (0 < sram_reserve_cmp {| start := 0x4000; size := 0x1000 |}
                        {| start := 0x10000; size := 0 |} <->
   start {| start := 0x10000; size := 0 |}
   < start {| start := 0x4000; size := 0x1000 |}).
Proof.
  assert (H : - 2 ^ 31 < start {| start := 0x4000; size := 0x1000 |}
                         - start {| start := 0x10000; size := 0 |} < 2 ^ 31)
    by (simpl; lia).
  exact (conj H (cmp_sign_is_order _ _ H)).
Defined.

(** X2: for all [u32] starts the comparison is 0 exactly when the starts are
    equal, and swapping the blocks negates it unless the starts are exactly
    2^31 apart, where it is the least [int] both ways. *)
Theorem cmp_zero_and_swap (a b : sram_reserve) :
  0 <= start a < 2 ^ 32 -> 0 <= start b < 2 ^ 32 ->
  (sram_reserve_cmp a b = 0 <-> start a = start b) /\
  - 2 ^ 31 <= sram_reserve_cmp a b < 2 ^ 31 /\
  (Z.abs (start a - start b) <> 2 ^ 31 ->
   sram_reserve_cmp b a = - sram_reserve_cmp a b) /\
  (Z.abs (start a - start b) = 2 ^ 31 ->
   sram_reserve_cmp a b = - 2 ^ 31 /\ sram_reserve_cmp b a = - 2 ^ 31).
Proof.
  intros Ha Hb; unfold sram_reserve_cmp, s32, u32.
  rewrite !Z.mod_mod by lia.
  destruct (Z.ltb_spec ((start a - start b) mod 2 ^ 32) (2 ^ 31)),
           (Z.ltb_spec ((start b - start a) mod 2 ^ 32) (2 ^ 31));
    Z.div_mod_to_equations; lia.
Qed.

Lemma cmp_zero_and_swap_witness :
  0 <= start {| start := 0x80000000; size := 0 |} < 2 ^ 32 /\
  0 <= start {| start := 0; size := 0x1000 |} < 2 ^ 32 /\
  (sram_reserve_cmp {| start := 0x80000000; size := 0 |}
                    {| start := 0; size := 0x1000 |} = 0 <->
   start {| start := 0x80000000; size := 0 |}
   = start {| start := 0; size := 0x1000 |}) /\
  - 2 ^ 31 <= sram_reserve_cmp {| start := 0x80000000; size := 0 |}
                               {| start := 0; size := 0x1000 |} < 2 ^ 31 /\
  (Z.abs (start {| start := 0x80000000; size := 0 |}
          - start {| start := 0; size := 0x1000 |}) <> 2 ^ 31 ->
   sram_reserve_cmp {| start := 0; size := 0x1000 |}
                    {| start := 0x80000000; size := 0 |}
   = - sram_reserve_cmp {| start := 0x80000000; size := 0 |}
                        {| start := 0; size := 0x1000 |}) /\
  (Z.abs (start {| start := 0x80000000; size := 0 |}
          - start {| start := 0; size := 0x1000 |}) = 2 ^ 31 ->
   sram_reserve_cmp {| start := 0x80000000; size := 0 |}
                    {| start := 0; size := 0x1000 |} = - 2 ^ 31 /\
   sram_reserve_cmp {| start := 0; size := 0x1000 |}
                    {| start := 0x80000000; size := 0 |} = - 2 ^ 31).
Proof.
  assert (H1 : 0 <= start {| start := 0x80000000; size := 0 |} < 2 ^ 32)
    by (simpl; lia).
  assert (H2 : 0 <= start {| start := 0; size := 0x1000 |} < 2 ^ 32)
    by (simpl; lia).
  exact (conj H1 (conj H2 (cmp_zero_and_swap _ _ H1 H2))).
Defined.

(** ** The loops on any input *)

Section AnyInput.

Variable P : platform.
Variable sram : sram_dev.
Variable res : resource.

Local Abbreviation sbody := (scan_body P sram res).
Local Abbreviation cbody := (child_body P res).

Lemma child_body_passes (c : of_child) (f : frame) :
  child_passes res c = true ->
  cbody c f =
  next (set_blocks (blocks f ++ [block_of P res (child_res c)])
          (set_ret (of_ret c) f)).
Proof.
  unfold child_passes, inside_b, child_body; simpl.
  intro H; apply andb_prop in H; destruct H as [H1 H2].
  apply negb_true_iff in H1, H2; now rewrite H1, H2.
Qed.

Lemma child_body_fails (c : of_child) (f : frame) :
  child_passes res c = false ->
  exists f', cbody c f = err_chunks f' /\
    fpool f' = fpool f /\
    ret f' = (if of_ret c <? 0 then of_ret c else - EINVAL) /\
    trace f' = trace f ++
      [dev_err (if of_ret c <? 0 then could_not_get_address
                else reserved_block_outside)].
Proof.
  unfold child_passes, inside_b, child_body; simpl.
  destruct (of_ret c <? 0); simpl.
  - intros _; eexists; split; [reflexivity|]; now simpl.
  - intro H; apply negb_false_iff in H; rewrite H.
    eexists; split; [reflexivity|]; now simpl.
Qed.

(** The first loop stops at the first child that does not pass, with the
    pool as it was. *)
Lemma children_first_failure (pre post : list of_child) (c : of_child)
      (f : frame) :
  forallb (child_passes res) pre = true -> child_passes res c = false ->
  exists f', for_each cbody (pre ++ c :: post) f = err_chunks f' /\
    fpool f' = fpool f /\
    ret f' = (if of_ret c <? 0 then of_ret c else - EINVAL) /\
    trace f' = trace f ++
      [dev_err (if of_ret c <? 0 then could_not_get_address
                else reserved_block_outside)].
Proof.
  revert f; induction pre as [|p pre IH]; intros f Hp Hc; simpl app.
  - cbn [for_each].
    destruct (child_body_fails c f Hc) as (f' & E & Q); rewrite E.
    now exists f'.
  - simpl in Hp; apply andb_prop in Hp; destruct Hp as [Hp1 Hp2].
    cbn [for_each]; rewrite child_body_passes by assumption.
    destruct (IH (set_blocks (blocks f ++ [block_of P res (child_res p)])
                    (set_ret (of_ret p) f)) Hp2 Hc)
      as (f' & E & Q & R & T).
    exists f'; repeat split; assumption.
Qed.

Lemma children_pool (cs : list of_child) (f : frame) :
  fpool (frame_of (for_each cbody cs f)) = fpool f.
Proof.
  revert f; induction cs as [|c cs IH]; intro f; [reflexivity|].
  cbn [for_each]; destruct (child_passes res c) eqn:Hc.
  - rewrite child_body_passes by assumption; now rewrite IH.
  - destruct (child_body_fails c f Hc) as (f' & E & Q & _).
    now rewrite E.
Qed.

Lemma gen_pool_totals_app (p : gen_pool) (k : gen_pool_chunk) (n : nat) :
  gen_pool_size {| chunks := chunks p ++ [k]; room := n |} =
    gen_pool_size p + chunk_size k /\
  gen_pool_avail {| chunks := chunks p ++ [k]; room := n |} =
    gen_pool_avail p + chunk_avail k.
Proof.
  unfold gen_pool_size, gen_pool_avail; simpl.
  induction (chunks p) as [|x l [IH1 IH2]]; simpl; lia.
Qed.

(** What an iteration of the scan does to the pool and to the running
    offset, however it ends. *)
Lemma scan_body_pool (b : sram_reserve) (f : frame) :
  0 <= cur_start f < 2 ^ 32 ->
  let f' := frame_of (sbody b f) in
  0 <= cur_start f' < 2 ^ 32 /\
  exists new,
    chunks (fpool f') = chunks (fpool f) ++ new /\
    room (fpool f) = (room (fpool f') + length new)%nat /\
    (length new <= 1)%nat /\
    Forall (chunk_mapped P sram res) new /\
    gen_pool_size (fpool f') - gen_pool_avail (fpool f') =
    gen_pool_size (fpool f) - gen_pool_avail (fpool f).
Proof.
  intros Hc f'; unfold f'.
  destruct (Z.lt_trichotomy (start b) (cur_start f)) as [H|[H|H]].
  - rewrite scan_body_lt by assumption; simpl.
    split; [assumption|]; exists []; rewrite app_nil_r; simpl.
    repeat split; auto.
  - rewrite scan_body_eq by assumption; simpl.
    split; [apply u32_range|]; exists []; rewrite app_nil_r; simpl.
    repeat split; auto.
  - rewrite scan_body_gt by assumption.
    destruct (room (fpool f)) as [|n] eqn:R; simpl.
    + split; [assumption|]; exists []; rewrite app_nil_r; simpl.
      repeat split; auto; lia.
    + split; [apply u32_range|].
      exists [gap_chunk P sram res f b]; simpl.
      split; [reflexivity|]; split; [lia|]; split; [lia|]; split.
      * constructor; [|constructor].
        split; [reflexivity|]; exists (cur_start f).
        repeat split; lia || reflexivity.
      * destruct (gen_pool_totals_app (fpool f)
                    (gap_chunk P sram res f b) n) as [E1 E2].
        rewrite E1, E2; unfold gap_chunk; simpl; lia.
Qed.

Lemma scan_pool (l : list sram_reserve) (f : frame) :
  0 <= cur_start f < 2 ^ 32 ->
  let f' := frame_of (for_each sbody l f) in
  exists new,
    chunks (fpool f') = chunks (fpool f) ++ new /\
    room (fpool f) = (room (fpool f') + length new)%nat /\
    (length new <= length l)%nat /\
    Forall (chunk_mapped P sram res) new /\
    gen_pool_size (fpool f') - gen_pool_avail (fpool f') =
    gen_pool_size (fpool f) - gen_pool_avail (fpool f).
Proof.
  revert f; induction l as [|b l IH]; intros f Hc; simpl.
  - exists []; rewrite app_nil_r; simpl; repeat split; auto.
  - destruct (scan_body_pool b f Hc) as (Hc1 & n1 & K1 & R1 & L1 & M1 & G1).
    destruct (sbody b f) as [f1|f1] eqn:E; simpl in *.
    + destruct (IH f1 Hc1) as (n2 & K2 & R2 & L2 & M2 & G2).
      exists (n1 ++ n2); rewrite K2, K1, app_assoc, length_app.
      repeat split; try lia.
      now apply Forall_app.
    + exists n1; repeat split; try assumption; lia.
Qed.

(** A scan that reaches its end prints nothing and keeps a return value
    of 0. *)
Lemma scan_next_quiet (l : list sram_reserve) (f f' : frame) :
  for_each sbody l f = next f' ->
  trace f' = trace f /\ (ret f = 0 -> ret f' = 0).
Proof.
  revert f; induction l as [|b l IH]; intros f E; simpl in E.
  - inversion E; auto.
  - destruct (Z.lt_trichotomy (start b) (cur_start f)) as [H|[H|H]].
    + rewrite scan_body_lt in E by assumption; discriminate.
    + rewrite scan_body_eq in E by assumption.
      apply IH in E; exact E.
    + rewrite scan_body_gt in E by assumption.
      destruct (room (fpool f)); [discriminate|].
      apply IH in E; simpl in E; tauto.
Qed.

(** A scan that stops short has met a block that starts before the running
    offset, or a pool without room. *)
Lemma scan_err_cases (l : list sram_reserve) (f f' : frame) :
  for_each sbody l f = err_chunks f' ->
  (ret f' = - EINVAL /\
   exists s c, s < c /\
     trace f' = trace f ++ [dev_err (block_starts_after s c)]) \/
  (ret f' = - ENOMEM /\ room (fpool f') = O /\ trace f' = trace f).
Proof.
  revert f; induction l as [|b l IH]; intros f E; [discriminate|].
  cbn [for_each] in E.
  destruct (Z.lt_trichotomy (start b) (cur_start f)) as [H|[H|H]].
  - rewrite scan_body_lt in E by assumption; inversion E; simpl.
    left; split; [reflexivity|]; now exists (start b), (cur_start f).
  - rewrite scan_body_eq in E by assumption.
    apply IH in E; exact E.
  - rewrite scan_body_gt in E by assumption.
    destruct (room (fpool f)) as [|n] eqn:R.
    + inversion E; simpl; right; auto.
    + apply IH in E; exact E.
Qed.

End AnyInput.

Section AnyChildren.

Variable P : platform.
Variable sram : sram_dev.
Variable res : resource.

Local Abbreviation cbody := (child_body P res).

Lemma children_blocks_length (cs : list of_child) (f f' : frame) :
  for_each cbody cs f = next f' ->
  length (blocks f') = (length (blocks f) + length cs)%nat.
Proof.
  revert f; induction cs as [|c cs IH]; intros f E; simpl in E.
  - inversion E; simpl; lia.
  - destruct (child_passes res c) eqn:Hc.
    + rewrite child_body_passes in E by assumption.
      apply IH in E; simpl in E; rewrite length_app in E; simpl in *; lia.
    + destruct (child_body_fails P res c f Hc) as (f1 & E1 & _).
      rewrite E1 in E; discriminate.
Qed.

(** How the first loop ends when [of_address_to_resource] returns 0 or a
    negative value. *)
Lemma children_outcome (cs : list of_child) (f : frame) :
  Forall (fun c => of_ret c <= 0) cs -> ret f = 0 ->
  match for_each cbody cs f with
  | next f' =>
      ret f' = 0 /\ trace f' = trace f /\
      forallb (child_passes res) cs = true
  | err_chunks f' =>
      ret f' < 0 /\ (exists d, trace f' = trace f ++ [dev_err d]) /\
      forallb (child_passes res) cs = false
  end.
Proof.
  revert f; induction cs as [|c cs IH]; intros f Hc Hr; simpl.
  - auto.
  - inversion Hc as [|? ? Hc1 Hcs]; subst.
    destruct (child_passes res c) eqn:Hp.
    + rewrite child_body_passes by assumption.
      assert (E0 : of_ret c = 0).
      { unfold child_passes in Hp; apply andb_prop in Hp.
        destruct Hp as [Hp _]; apply negb_true_iff, Z.ltb_ge in Hp; lia. }
      specialize (IH (set_blocks (blocks f ++ [block_of P res (child_res c)])
                        (set_ret (of_ret c) f)) Hcs E0).
      destruct (for_each _ _ _); simpl in *; exact IH.
    + destruct (child_body_fails P res c f Hp) as (f' & E & _ & R & T).
      rewrite E; simpl; repeat split.
      * rewrite R; destruct (Z.ltb_spec (of_ret c) 0); unfold EINVAL; lia.
      * eexists; exact T.
Qed.

End AnyChildren.

(** X3: the first child that does not pass the first loop decides the
    result, whatever follows it in the list: the return value is the
    negative value [of_address_to_resource] gave for it, with the diagnostic
    that its address could not be got, or -EINVAL with the diagnostic that
    the block lies outside the SRAM area; it is the only diagnostic, the
    pool is as it was, and [sram_probe] publishes no device. *)
Theorem first_failing_child_decides
    (P : platform) (sram : sram_dev) (res : resource)
    (pre post : list of_child) (c : of_child) :
  forallb (child_passes res) pre = true -> child_passes res c = false ->
  let o := sram_reserve_regions P sram res true (pre ++ c :: post) in
  out_ret o = (if of_ret c <? 0 then of_ret c else - EINVAL) /\
  out_ret o < 0 /\
  out_pool o = pool sram /\
  out_trace o =
    [dev_err (if of_ret c <? 0 then could_not_get_address
              else reserved_block_outside)] /\
  forall env pdev,
    mem_resource pdev = Some res -> of_children pdev = pre ++ c :: post ->
    drvdata (sram_probe P env pdev) = None.
Proof.
  intros Hp Hc.
  assert (Hall : forall sram',
             let o := sram_reserve_regions P sram' res true
                        (pre ++ c :: post) in
             out_ret o = (if of_ret c <? 0 then of_ret c else - EINVAL) /\
             out_ret o < 0 /\ out_pool o = pool sram' /\
             out_trace o =
               [dev_err (if of_ret c <? 0 then could_not_get_address
                         else reserved_block_outside)]).
  { intros sram'; unfold sram_reserve_regions, reserve_frame, collect.
    destruct (children_first_failure P res pre post c (entry sram') Hp Hc)
      as (f' & E & Q & R & T).
    rewrite E; simpl; rewrite R, Q, T; repeat split.
    destruct (Z.ltb_spec (of_ret c) 0); unfold EINVAL; lia. }
  destruct (Hall sram) as (R & N & Q & T).
  repeat split; try assumption.
  intros env pdev Hm Hch; apply (probe_rejects P env pdev res Hm).
  intros sram' k; rewrite Hch; destruct k.
  - destruct (Hall sram') as (_ & N' & _); lia.
  - unfold sram_reserve_regions, ENOMEM; simpl; lia.
Qed.

Lemma first_failing_child_decides_witness :
  forallb (child_passes Sample.region)
          [resolved (Sample.child 0x4000 0x1000)] = true /\
  child_passes Sample.region
    {| of_ret := - EINVAL; child_res := Sample.child 0 0 |} = false /\
  let o := sram_reserve_regions Sample.lp64 Sample.dev Sample.region true
             ([resolved (Sample.child 0x4000 0x1000)]
              ++ {| of_ret := - EINVAL; child_res := Sample.child 0 0 |}
                 :: [resolved (Sample.child 0xf000 0x2000)]) in
  out_ret o =
    (if of_ret {| of_ret := - EINVAL; child_res := Sample.child 0 0 |} <? 0
     then of_ret {| of_ret := - EINVAL; child_res := Sample.child 0 0 |}
     else - EINVAL) /\
  out_ret o < 0 /\
  out_pool o = pool Sample.dev /\
  out_trace o =
    [dev_err
       (if of_ret {| of_ret := - EINVAL; child_res := Sample.child 0 0 |} <? 0
        then could_not_get_address else reserved_block_outside)] /\
  forall env pdev,
    mem_resource pdev = Some Sample.region ->
    of_children pdev =
      [resolved (Sample.child 0x4000 0x1000)]
      ++ {| of_ret := - EINVAL; child_res := Sample.child 0 0 |}
         :: [resolved (Sample.child 0xf000 0x2000)] ->
    drvdata (sram_probe Sample.lp64 env pdev) = None.
Proof.
  assert (H1 : forallb (child_passes Sample.region)
                 [resolved (Sample.child 0x4000 0x1000)] = true)
    by reflexivity.
  assert (H2 : child_passes Sample.region
                 {| of_ret := - EINVAL; child_res := Sample.child 0 0 |}
               = false) by reflexivity.
  exact (conj H1 (conj H2
           (first_failing_child_decides Sample.lp64 Sample.dev Sample.region
              _ [resolved (Sample.child 0xf000 0x2000)] _ H1 H2))).
Defined.

(** The pool after a run, against the pool before it. *)
Lemma reserve_pool_growth
      (P : platform) (sram : sram_dev) (res : resource)
      (k : bool) (cs : list of_child) :
  let o := sram_reserve_regions P sram res k cs in
  exists new,
    chunks (out_pool o) = chunks (pool sram) ++ new /\
    room (pool sram) = (room (out_pool o) + length new)%nat /\
    (length new <= length cs + 1)%nat /\
    Forall (chunk_mapped P sram res) new /\
    gen_pool_size (out_pool o) - gen_pool_avail (out_pool o) =
    gen_pool_size (pool sram) - gen_pool_avail (pool sram).
Proof.
  unfold sram_reserve_regions; destruct k; simpl.
  2:{ exists []; rewrite app_nil_r; simpl; repeat split; auto; lia. }
  unfold reserve_frame.
  pose proof (children_pool P res cs (entry sram)) as Hpool.
  unfold collect.
  destruct (for_each (child_body P res) cs (entry sram)) as [f|f] eqn:E;
    simpl in Hpool.
  - assert (H0 : 0 <= cur_start (prepare P res f) < 2 ^ 32)
      by (simpl; lia).
    destruct (scan_pool P sram res (blocks (prepare P res f))
                (prepare P res f) H0) as (new & K & R & L & M & G).
    replace (fpool (prepare P res f)) with (pool sram) in *
      by (now rewrite <- Hpool).
    exists new; unfold scan; repeat split; try assumption.
    apply children_blocks_length in E; simpl in E.
    unfold prepare in L; simpl in L.
    rewrite (Permutation_length (list_sort_perm _ _)), length_app in L.
    simpl in L; lia.
  - exists []; rewrite app_nil_r; simpl; rewrite Hpool.
    repeat split; auto; lia.
Qed.

(** X4: whatever the children and however the run ends,
    [sram_reserve_regions] only adds to the pool: the chunks it finds stay
    in place, the new ones come after them and use up as much room; there
    are at most as many new chunks as children plus one; each new chunk is
    entirely available and has its mapped and its physical address at the
    same offset from the mapping and from the start of the region; what was
    allocated from the pool before stays allocated. *)
Theorem pool_only_grows
    (P : platform) (sram : sram_dev) (res : resource)
    (k : bool) (cs : list of_child) :
  let o := sram_reserve_regions P sram res k cs in
  exists new,
    chunks (out_pool o) = chunks (pool sram) ++ new /\
    room (pool sram) = (room (out_pool o) + length new)%nat /\
    (length new <= length cs + 1)%nat /\
    Forall (chunk_mapped P sram res) new /\
    gen_pool_size (out_pool o) - gen_pool_avail (out_pool o) =
    gen_pool_size (pool sram) - gen_pool_avail (pool sram).
Proof. apply reserve_pool_growth. Qed.

(** X5: when [of_address_to_resource] returns 0 or a negative value for
    every child, [sram_reserve_regions] returns 0 or a negative value.  It
    returns 0 exactly when the block array was allocated and both loops ran
    to their end, and then it has printed nothing and every child has
    passed the first loop.  A negative value comes with exactly one
    diagnostic, or it is -ENOMEM without any: the block array could not be
    allocated, or the pool had no room left for a chunk. *)
Theorem return_value_classes
    (P : platform) (sram : sram_dev) (res : resource)
    (k : bool) (cs : list of_child) :
  Forall (fun c => of_ret c <= 0) cs ->
  let o := sram_reserve_regions P sram res k cs in
  out_ret o <= 0 /\
  (out_ret o = 0 <->
   k = true /\ exists f, reserve_frame P sram res cs = next f) /\
  (out_ret o = 0 ->
   out_trace o = [] /\ forallb (child_passes res) cs = true) /\
  (out_ret o < 0 ->
   (exists d, out_trace o = [dev_err d]) \/
   (out_ret o = - ENOMEM /\ out_trace o = [] /\
    (k = false \/ room (out_pool o) = O))).
Proof.
  intros Hc; unfold sram_reserve_regions; destruct k; simpl.
  2:{ unfold ENOMEM; repeat split; try lia; try (intros [? _]; discriminate).
      intros _; right; auto. }
  unfold reserve_frame, collect.
  pose proof (children_outcome P res cs (entry sram) Hc eq_refl) as Ho.
  destruct (for_each (child_body P res) cs (entry sram)) as [f|f] eqn:E.
  - destruct Ho as (R & T & A); simpl in T.
    unfold scan.
    assert (Rp : ret (prepare P res f) = 0) by exact R.
    assert (Tp : trace (prepare P res f) = []) by exact T.
    destruct (for_each (scan_body P sram res) (blocks (prepare P res f))
                (prepare P res f)) as [g|g] eqn:Es; simpl.
    + destruct (scan_next_quiet P sram res _ _ _ Es) as [Tg Rg].
      rewrite Tg, Tp, (Rg Rp).
      repeat split; try lia; try assumption; eauto.
    + pose proof (scan_err P sram res _ _ _ Es) as Neg.
      destruct (scan_err_cases P sram res _ _ _ Es)
        as [(Rg & s & c & _ & Tg)|(Rg & Mg & Tg)];
        rewrite Tg, Tp; simpl;
        (split; [lia|]); (split; [split; [lia|intros [_ [? ?]]; discriminate]|]);
        (split; [lia|]); intros _.
      * left; eauto.
      * right; auto.
  - destruct Ho as (R & (d & T) & A); simpl in *.
    rewrite T; repeat split; try lia; try (intros [_ [? ?]]; discriminate).
    intros _; left; eauto.
Qed.

Lemma return_value_classes_witness :
  Forall (fun c => of_ret c <= 0)
         [resolved (Sample.child 0x4000 0x1000)] /\
  let o := sram_reserve_regions Sample.lp64 Sample.dev Sample.region true
             [resolved (Sample.child 0x4000 0x1000)] in
  out_ret o <= 0 /\
  (out_ret o = 0 <->
   true = true /\
   exists f, reserve_frame Sample.lp64 Sample.dev Sample.region
               [resolved (Sample.child 0x4000 0x1000)] = next f) /\
  (out_ret o = 0 ->
   out_trace o = [] /\
   forallb (child_passes Sample.region)
           [resolved (Sample.child 0x4000 0x1000)] = true) /\
  (out_ret o < 0 ->
   (exists d, out_trace o = [dev_err d]) \/
   (out_ret o = - ENOMEM /\ out_trace o = [] /\
    (true = false \/ room (out_pool o) = O))).
Proof.
  assert (H1 : Forall (fun c => of_ret c <= 0)
                 [resolved (Sample.child 0x4000 0x1000)])
    by (repeat constructor; simpl; lia).
  exact (conj H1
           (return_value_classes Sample.lp64 Sample.dev Sample.region true
              _ H1)).
Defined.

(** X6: with the block array allocated and more room in the pool than there
    are children, [sram_reserve_regions] on resolved children does not fail
    for lack of memory: it returns 0 or -EINVAL. *)
Theorem enough_room_no_enomem
    (P : platform) (sram : sram_dev) (res : resource) (rs : list resource) :
  (length rs < room (pool sram))%nat ->
  let o := sram_reserve_regions P sram res true (map resolved rs) in
  out_ret o = 0 \/ out_ret o = - EINVAL.
Proof.
  intros Hroom; unfold sram_reserve_regions; simpl.
  destruct (inside_dec res rs) as [Hi|Hn].
  - rewrite reserve_inside by assumption.
    destruct (scan_entry_fields P sram res rs) as (C0 & R0 & P0 & T0).
    destruct (for_each _ _ _) as [f'|f'] eqn:E; simpl.
    + left; now apply (scan_next_quiet P sram res _ _ _ E).
    + right; apply scan_err_overlap in E; [apply E|].
      rewrite P0, (Permutation_length (sorted_blocks_perm P res rs)).
      rewrite length_app, length_map; simpl; lia.
  - right; unfold reserve_frame.
    destruct (collect_outside P sram res rs Hn) as (f' & E & R & _).
    now rewrite E.
Qed.

Lemma enough_room_no_enomem_witness :
  (length [Sample.child 0x1000 0x1000; Sample.child 0x1800 0x1000]
   < room (pool Sample.dev))%nat /\
  let o := sram_reserve_regions Sample.lp64 Sample.dev Sample.region true
             (map resolved [Sample.child 0x1000 0x1000;
                            Sample.child 0x1800 0x1000]) in
  out_ret o = 0 \/ out_ret o = - EINVAL.
Proof.
  assert (H1 : (length [Sample.child 0x1000 0x1000;
                        Sample.child 0x1800 0x1000]
                < room (pool Sample.dev))%nat) by (simpl; lia).
  exact (conj H1
           (enough_room_no_enomem Sample.lp64 Sample.dev Sample.region
              _ H1)).
Defined.

(** ** The capacity of the pool *)

Lemma block_bytes_app (l1 l2 : list sram_reserve) :
  block_bytes (l1 ++ l2) = block_bytes l1 + block_bytes l2.
Proof. unfold block_bytes; induction l1; simpl; lia. Qed.

Lemma block_bytes_perm (l1 l2 : list sram_reserve) :
  Permutation l1 l2 -> block_bytes l1 = block_bytes l2.
Proof. unfold block_bytes; induction 1; simpl; lia. Qed.

Section Capacity.

Variable P : platform.
Variable sram : sram_dev.
Variable res : resource.
Hypothesis res_wf : wf_resource P res.
Hypothesis res_small : region_size res < 2 ^ 32.

(** A scan that reaches its end has registered the bytes it went over that
    are in no block. *)
Lemma scan_next_bytes (l : list sram_reserve) (f f' : frame) :
  Forall (bounded (region_size res)) l -> 0 <= cur_start f ->
  for_each (scan_body P sram res) l f = next f' ->
  gen_pool_size (fpool f') + block_bytes l =
  gen_pool_size (fpool f) + cur_start f' - cur_start f.
Proof.
  revert f; induction l as [|b l IH]; intros f Hb Hc E.
  - simpl in E; inversion E; subst; unfold block_bytes; simpl; lia.
  - inversion Hb as [|? ? Hb1 Hbl]; subst.
    pose proof Hb1 as (B1 & B2 & B3).
    cbn [for_each] in E.
    change (block_bytes (b :: l)) with (size b + block_bytes l).
    destruct (Z.lt_trichotomy (start b) (cur_start f)) as [H|[H|H]].
    + rewrite scan_body_lt in E by assumption; discriminate.
    + rewrite scan_body_eq, u32_small in E by lia.
      apply IH in E; [simpl in E; lia|assumption|simpl; lia].
    + rewrite scan_body_gt in E by assumption.
      destruct (room (fpool f)) as [|n]; [discriminate|].
      rewrite u32_small in E by lia.
      apply IH in E; [|assumption|simpl; lia].
      destruct (gap_chunk_small P sram res res_wf res_small b f Hb1
                  ltac:(lia)) as [_ Gs].
      destruct (gen_pool_totals_app (fpool f) (gap_chunk P sram res f b) n)
        as [E1 _].
      simpl in E; rewrite E1, Gs in E; lia.
Qed.

Lemma blocks_bytes (rs : list resource) :
  Forall (wf_resource P) rs -> Forall (inside res) rs ->
  block_bytes (sorted_blocks P res rs) = reserved_bytes rs.
Proof.
  intros Hw Hi.
  rewrite (block_bytes_perm _ _ (sorted_blocks_perm P res rs)).
  rewrite block_bytes_app, (marker_small P res res_wf res_small).
  unfold block_bytes at 2; simpl.
  induction rs as [|c rs IH]; [reflexivity|].
  inversion Hw; inversion Hi; subst; simpl map.
  change (block_bytes (block_of P res c :: map (block_of P res) rs))
    with (size (block_of P res c) + block_bytes (map (block_of P res) rs)).
  rewrite (block_of_small P res res_wf res_small c) by assumption.
  simpl; specialize (IH ltac:(assumption) ltac:(assumption)); lia.
Qed.

End Capacity.

(** The capacity a run that returns 0 has added. *)
Lemma accepted_capacity
      (P : platform) (sram : sram_dev) (res : resource)
      (k : bool) (rs : list resource) :
  wf_resource P res -> region_size res < 2 ^ 32 ->
  Forall (wf_resource P) rs ->
  let o := sram_reserve_regions P sram res k (map resolved rs) in
  out_ret o = 0 ->
  gen_pool_size (out_pool o) =
    gen_pool_size (pool sram) + region_size res - reserved_bytes rs /\
  gen_pool_avail (out_pool o) =
    gen_pool_avail (pool sram) + region_size res - reserved_bytes rs.
Proof.
  intros Hres Hsmall Hw o Hr.
  destruct (accepted_next P sram res k rs Hr) as (_ & Hi & f' & E & Eo).
  destruct (scan_entry_fields P sram res rs) as (C0 & R0 & P0 & T0).
  assert (H0 : 0 <= cur_start (scan_entry P sram res rs)) by lia.
  pose proof (sorted_blocks_bounded P res Hres Hsmall rs Hw Hi) as Hb.
  pose proof (scan_next_bytes P sram res Hres Hsmall _ _ _ Hb H0 E) as Hs.
  destruct (scan_next_tiles P sram res Hres Hsmall _ _ _ Hb H0 E)
    as (new & _ & _ & _ & Em & Ei & _).
  specialize (Ei (marker_in_sorted P res Hres Hsmall rs)).
  assert (0 <= region_size res)
    by (destruct Hres; unfold region_size; lia).
  rewrite (blocks_bytes P res Hres Hsmall rs Hw Hi), C0, P0 in Hs.
  destruct (reserve_pool_growth P sram res k (map resolved rs))
    as (_ & _ & _ & _ & _ & G).
  fold o in G; unfold o in *; rewrite Eo in *; simpl in *.
  lia.
Qed.

(** X7: for a region smaller than 2^32 bytes and reserved ranges whose
    last address is not below their first address less one, a run that
    returns 0 has added to the capacity of the pool, and to what is
    available in it, the size of the region less the bytes of the reserved
    ranges. *)
Theorem capacity_is_region_less_reserved
    (P : platform) (sram : sram_dev) (res : resource)
    (k : bool) (rs : list resource) :
  wf_resource P res -> region_size res < 2 ^ 32 ->
  Forall (wf_resource P) rs ->
  let o := sram_reserve_regions P sram res k (map resolved rs) in
  out_ret o = 0 ->
  gen_pool_size (out_pool o) =
    gen_pool_size (pool sram) + region_size res - reserved_bytes rs /\
  gen_pool_avail (out_pool o) =
    gen_pool_avail (pool sram) + region_size res - reserved_bytes rs.
Proof. apply accepted_capacity. Qed.

Lemma capacity_is_region_less_reserved_witness :
  wf_resource Sample.lp64 Sample.region /\
  region_size Sample.region < 2 ^ 32 /\
  Forall (wf_resource Sample.lp64)
         [Sample.child 0x8000 0x1000; Sample.child 0x2000 0x1000] /\
  let o := sram_reserve_regions Sample.lp64 Sample.dev Sample.region true
             (map resolved [Sample.child 0x8000 0x1000;
                            Sample.child 0x2000 0x1000]) in
  out_ret o = 0 /\
  gen_pool_size (out_pool o) =
    gen_pool_size (pool Sample.dev) + region_size Sample.region
    - reserved_bytes [Sample.child 0x8000 0x1000; Sample.child 0x2000 0x1000]
  /\
  gen_pool_avail (out_pool o) =
    gen_pool_avail (pool Sample.dev) + region_size Sample.region
    - reserved_bytes [Sample.child 0x8000 0x1000; Sample.child 0x2000 0x1000].
Proof.
  assert (H1 : wf_resource Sample.lp64 Sample.region) by by_eval.
  assert (H2 : region_size Sample.region < 2 ^ 32) by by_eval.
  assert (H3 : Forall (wf_resource Sample.lp64)
                 [Sample.child 0x8000 0x1000; Sample.child 0x2000 0x1000])
    by (repeat constructor; by_eval).
  assert (H4 : out_ret (sram_reserve_regions Sample.lp64 Sample.dev
                          Sample.region true
                          (map resolved [Sample.child 0x8000 0x1000;
                                         Sample.child 0x2000 0x1000])) = 0)
    by reflexivity.
  exact (conj H1 (conj H2 (conj H3 (conj H4
           (capacity_is_region_less_reserved Sample.lp64 Sample.dev
              Sample.region true _ H1 H2 H3 H4))))).
Defined.

(** ** Valid lists are accepted *)

Lemma hits_in {X : Type} (inb : X -> Z -> bool) (l : list X) (y : X) (a : Z) :
  In y l -> inb y a = true -> (1 <= hits inb l a)%nat.
Proof.
  induction l as [|x l IH]; intros Hy Ha; [contradiction|].
  rewrite hits_cons; destruct Hy as [->|Hy].
  - rewrite Ha; lia.
  - specialize (IH Hy Ha); lia.
Qed.

(** Blocks in ascending order of start of which no two share an offset end
    before the following ones start. *)
Lemma sorted_ends_before (n : Z) (l : list sram_reserve) :
  StronglySorted (key_le start) l ->
  Forall (bounded n) l ->
  Forall (fun b => 0 < size b \/ start b = n) l ->
  (forall x, (hits in_block l x <= 1)%nat) ->
  StronglySorted ends_before l.
Proof.
  induction 1 as [|b l S IH F]; intros Hb Hs Hh; constructor.
  - inversion Hb; inversion Hs; subst.
    apply IH; try assumption.
    intro x; specialize (Hh x); rewrite hits_cons in Hh; lia.
  - inversion Hb as [|? ? (B1 & B2 & B3) Hbl]; subst.
    inversion Hs as [|? ? _ Hsl]; subst.
    rewrite Forall_forall in *; intros b' Hb'.
    specialize (F b' Hb'); unfold key_le in F; unfold ends_before.
    destruct (Hsl b' Hb') as [Hpos|Hend]; [|lia].
    destruct (Z.le_gt_cases (start b + size b) (start b')) as [|Hlt];
      [assumption|exfalso].
    specialize (Hh (start b')); rewrite hits_cons in Hh.
    assert (in_block b (start b') = true)
      by (unfold in_block; apply andb_true_intro; split;
          [apply Z.leb_le|apply Z.ltb_lt]; lia).
    assert (in_block b' (start b') = true)
      by (unfold in_block; apply andb_true_intro; split;
          [apply Z.leb_le|apply Z.ltb_lt]; lia).
    pose proof (hits_in in_block l b' (start b') Hb' ltac:(assumption)).
    rewrite H in Hh; lia.
Qed.

Section Acceptance.

Variable P : platform.
Variable sram : sram_dev.
Variable res : resource.

(** The scan of such a list reaches its end when the pool has room. *)
Lemma scan_sorted_next (l : list sram_reserve) (f : frame) :
  region_size res < 2 ^ 32 ->
  StronglySorted ends_before l ->
  Forall (bounded (region_size res)) l ->
  Forall (fun b => cur_start f <= start b) l ->
  (length l <= room (fpool f))%nat ->
  exists f', for_each (scan_body P sram res) l f = next f'.
Proof.
  intros Hsmall; revert f.
  induction l as [|b l IH]; intros f Hs Hb Hc Hr; [now exists f|].
  inversion Hs as [|? ? Hs' He]; inversion Hb as [|? ? (B1 & B2 & B3) Hb'];
    inversion Hc as [|? ? Hc1 Hc']; subst.
  simpl in Hr; cbn [for_each].
  assert (Hnext : Forall (fun b' => start b + size b <= start b') l)
    by exact He.
  destruct (Z.eq_dec (start b) (cur_start f)) as [H|H].
  - rewrite scan_body_eq, u32_small by lia.
    apply IH; try assumption; simpl; lia.
  - rewrite scan_body_gt by lia.
    destruct (room (fpool f)) as [|n] eqn:R; [lia|].
    rewrite u32_small by lia.
    apply IH; try assumption; simpl; lia.
Qed.

(** A list of reserved ranges that are inside the region, not empty and of
    which no two share an address is accepted. *)
Lemma accepts_valid (rs : list resource) :
  wf_resource P res -> region_size res < 2 ^ 31 ->
  Forall (wf_resource P) rs -> Forall (inside res) rs ->
  Forall (fun c => res_start c <= res_end c) rs ->
  (forall a, (hits in_resource rs a <= 1)%nat) ->
  (length rs < room (pool sram))%nat ->
  out_ret (sram_reserve_regions P sram res true (map resolved rs)) = 0.
Proof.
  intros Hres Hsmall Hw Hi Hne Hh Hroom.
  assert (Hs32 : region_size res < 2 ^ 32) by lia.
  unfold sram_reserve_regions; rewrite reserve_inside by assumption.
  destruct (scan_entry_fields P sram res rs) as (C0 & R0 & P0 & T0).
  pose proof (sorted_blocks_bounded P res Hres Hs32 rs Hw Hi) as Hb.
  assert (Hends : StronglySorted ends_before (sorted_blocks P res rs)).
  { apply (sorted_ends_before (region_size res)).
    - now apply sorted_blocks_sorted.
    - exact Hb.
    - apply (Permutation_Forall
               (Permutation_sym (sorted_blocks_perm P res rs))).
      apply Forall_app; split.
      + apply Forall_map; rewrite Forall_forall in *; intros c Hc.
        rewrite block_of_small by auto.
        left; simpl; unfold region_size; specialize (Hne c Hc); lia.
      + constructor; [|constructor].
        right; now rewrite (marker_small P res Hres Hs32).
    - intro x.
      rewrite (hits_sorted_blocks P res Hres Hs32) by assumption.
      apply Hh. }
  destruct (scan_sorted_next (sorted_blocks P res rs)
              (scan_entry P sram res rs) Hs32 Hends Hb) as (f' & E).
  - rewrite C0; eapply Forall_impl; [|exact Hb]; intros b (? & _); lia.
  - rewrite P0, (Permutation_length (sorted_blocks_perm P res rs)).
    rewrite length_app, length_map; simpl; lia.
  - rewrite E; simpl.
    now apply (scan_next_quiet P sram res _ _ _ E).
Qed.

End Acceptance.

(** X8: in a region smaller than 2^31 bytes, every list of reserved ranges
    that are inside the region, not empty, and of which no two share an
    address is accepted, in whatever order it comes, when the block array
    is allocated and the pool has more room than there are children:
    [sram_reserve_regions] returns 0 and prints nothing. *)
Theorem valid_list_accepted
    (P : platform) (sram : sram_dev) (res : resource) (rs : list resource) :
  wf_resource P res -> region_size res < 2 ^ 31 ->
  Forall (wf_resource P) rs -> Forall (inside res) rs ->
  Forall (fun c => res_start c <= res_end c) rs ->
  (forall a, (hits in_resource rs a <= 1)%nat) ->
  (length rs < room (pool sram))%nat ->
  let o := sram_reserve_regions P sram res true (map resolved rs) in
  out_ret o = 0 /\ out_trace o = [].
Proof.
  intros Hres Hsmall Hw Hi Hne Hh Hroom o.
  pose proof (accepts_valid P sram res rs Hres Hsmall Hw Hi Hne Hh Hroom)
    as Hr.
  split; [exact Hr|].
  assert (Hs32 : region_size res < 2 ^ 32) by lia.
  now destruct (accepted_tiles P sram res Hres Hs32 true rs Hw Hr)
    as (_ & f' & new & _ & _ & T & _).
Qed.

Lemma valid_list_accepted_witness :
  wf_resource Sample.ilp32 Sample.region /\
  region_size Sample.region < 2 ^ 31 /\
  Forall (wf_resource Sample.ilp32)
         [Sample.child 0x8000 0x1000; Sample.child 0x2000 0x1000] /\
  Forall (inside Sample.region)
         [Sample.child 0x8000 0x1000; Sample.child 0x2000 0x1000] /\
  Forall (fun c => res_start c <= res_end c)
         [Sample.child 0x8000 0x1000; Sample.child 0x2000 0x1000] /\
  (forall a,
     (hits in_resource
        [Sample.child 0x8000 0x1000; Sample.child 0x2000 0x1000] a
      <= 1)%nat) /\
  (length [Sample.child 0x8000 0x1000; Sample.child 0x2000 0x1000]
   < room (pool Sample.dev))%nat /\
  let o := sram_reserve_regions Sample.ilp32 Sample.dev Sample.region true
             (map resolved [Sample.child 0x8000 0x1000;
                            Sample.child 0x2000 0x1000]) in
  out_ret o = 0 /\ out_trace o = [].
Proof.
  assert (H1 : wf_resource Sample.ilp32 Sample.region) by by_eval.
  assert (H2 : region_size Sample.region < 2 ^ 31) by by_eval.
  assert (H3 : Forall (wf_resource Sample.ilp32)
                 [Sample.child 0x8000 0x1000; Sample.child 0x2000 0x1000])
    by (repeat constructor; by_eval).
  assert (H4 : Forall (inside Sample.region)
                 [Sample.child 0x8000 0x1000; Sample.child 0x2000 0x1000])
    by (repeat constructor; by_eval).
  assert (H5 : Forall (fun c => res_start c <= res_end c)
                 [Sample.child 0x8000 0x1000; Sample.child 0x2000 0x1000])
    by (repeat constructor; by_eval).
  assert (H6 : forall a,
             (hits in_resource
                [Sample.child 0x8000 0x1000; Sample.child 0x2000 0x1000] a
              <= 1)%nat).
  { intro a; rewrite !hits_cons; unfold hits, in_resource; simpl.
    repeat match goal with
           | |- context [?x <=? ?y] => destruct (Z.leb_spec x y)
           end; simpl; lia. }
  assert (H7 : (length [Sample.child 0x8000 0x1000; Sample.child 0x2000 0x1000]
                < room (pool Sample.dev))%nat) by (simpl; lia).
  exact (conj H1 (conj H2 (conj H3 (conj H4 (conj H5 (conj H6 (conj H7
           (valid_list_accepted Sample.ilp32 Sample.dev Sample.region
              _ H1 H2 H3 H4 H5 H6 H7)))))))).
Defined.

(** ** Probe and remove *)

Section ProbeFacts.

Variable P : platform.

(** The first loop prints at most one diagnostic, and only when it stops
    short, with a negative return value. *)
Lemma children_flow (res : resource) (cs : list of_child) (f : frame) :
  match for_each (child_body P res) cs f with
  | next f' => trace f' = trace f
  | err_chunks f' =>
      ret f' < 0 /\ exists d, trace f' = trace f ++ [dev_err d]
  end.
Proof.
  revert f; induction cs as [|c cs IH]; intro f; simpl; [reflexivity|].
  destruct (child_passes res c) eqn:Hc.
  - rewrite child_body_passes by assumption.
    specialize (IH (set_blocks (blocks f ++ [block_of P res (child_res c)])
                      (set_ret (of_ret c) f))).
    destruct (for_each _ _ _); exact IH.
  - destruct (child_body_fails P res c f Hc) as (f' & E & _ & R & T).
    rewrite E; split.
    + rewrite R; destruct (Z.ltb_spec (of_ret c) 0); unfold EINVAL; lia.
    + eexists; exact T.
Qed.

(** A run prints nothing or one diagnostic, and nothing when it returns
    0. *)
Lemma reserve_trace_shape (sram : sram_dev) (res : resource) (k : bool)
      (cs : list of_child) :
  let o := sram_reserve_regions P sram res k cs in
  (out_trace o = [] \/ exists d, out_trace o = [dev_err d]) /\
  (out_ret o = 0 -> out_trace o = []).
Proof.
  unfold sram_reserve_regions; destruct k; simpl; [|auto].
  unfold reserve_frame, collect.
  pose proof (children_flow res cs (entry sram)) as Hc.
  destruct (for_each (child_body P res) cs (entry sram)) as [f|f].
  - simpl in Hc; unfold scan.
    assert (Tp : trace (prepare P res f) = []) by exact Hc.
    destruct (for_each (scan_body P sram res) (blocks (prepare P res f))
                (prepare P res f)) as [g|g] eqn:E; simpl.
    + destruct (scan_next_quiet P sram res _ _ _ E) as [Tg _].
      rewrite Tg, Tp; auto.
    + pose proof (scan_err P sram res _ _ _ E).
      destruct (scan_err_cases P sram res _ _ _ E)
        as [(_ & s & c & _ & Tg)|(_ & _ & Tg)]; rewrite Tg, Tp; simpl;
        (split; [eauto|intro; lia]).
  - destruct Hc as (R & d & T); simpl in *; rewrite T.
    split; [eauto|intro; lia].
Qed.

(** What a probe that publishes a device has gone through. *)
Lemma probe_published (env : services) (pdev : platform_device)
      (d : sram_dev) :
  drvdata (sram_probe P env pdev) = Some d ->
  exists res virt n,
    kzalloc_ok env = true /\ request_ok env = true /\
    mem_resource pdev = Some res /\ ioremap_wc env = inl virt /\
    pool_create env = inl n /\
    let o := sram_reserve_regions P
               {| virt_base := virt; pool := {| chunks := []; room := n |};
                  clk := None |}
               res (kmalloc_ok env) (of_children pdev) in
    out_ret o = 0 /\
    virt_base d = virt /\ pool d = out_pool o /\
    clk d = match clk_get env with
            | inl c => held_clock c
            | inr _ => None
            end /\
    probe_ret (sram_probe P env pdev) = 0 /\
    probe_trace (sram_probe P env pdev) =
      out_trace o ++ match clk_get env with
                     | inl c => [clk_prepare_enable c]
                     | inr _ => []
                     end.
Proof.
  unfold sram_probe.
  destruct (kzalloc_ok env); simpl; [|discriminate].
  destruct (mem_resource pdev) as [res|]; [|discriminate].
  destruct (request_ok env); simpl; [|discriminate].
  destruct (ioremap_wc env) as [virt|]; [|discriminate].
  destruct (pool_create env) as [n|]; [|discriminate].
  match goal with
  | |- context [negb (out_ret ?o =? 0)] =>
      destruct (Z.eqb_spec (out_ret o) 0) as [E|E]
  end; simpl; [|discriminate].
  destruct (clk_get env) as [c|e]; simpl; intro H; inversion H; subst;
    exists res, virt, n; simpl; rewrite ?app_nil_r; repeat split; auto.
Qed.

End ProbeFacts.



(** X10: a probe that publishes a device has returned 0 and printed no
    diagnostic; everything in the pool of the device is available; it has
    called [clk_prepare_enable] once, with the pointer [devm_clk_get]
    returned, unless that was an error pointer, and the device holds that
    pointer as its clock unless it is NULL.  Removing the device before
    anything is allocated from its pool returns 0, prints no diagnostic and
    disables the clock the device holds, once: a clock that is not NULL is
    enabled by the probe and disabled by the removal, while a NULL pointer
    is passed to [clk_prepare_enable] and never to
    [clk_disable_unprepare]. *)
Theorem probe_then_remove_clock
    (P : platform) (env : services) (pdev : platform_device) (d : sram_dev) :
  drvdata (sram_probe P env pdev) = Some d ->
  probe_ret (sram_probe P env pdev) = 0 /\
  probe_trace (sram_probe P env pdev) =
    match clk_get env with inl c => [clk_prepare_enable c] | inr _ => [] end /\
  clk d = match clk_get env with
          | inl c => if c =? 0 then None else Some c
          | inr _ => None
          end /\
  gen_pool_avail (pool d) = gen_pool_size (pool d) /\
  sram_remove d =
    (0, match clk d with Some c => [clk_disable_unprepare c] | None => [] end)
  /\
  (forall c, clk d = Some c ->
     c <> 0 /\
     probe_trace (sram_probe P env pdev) = [clk_prepare_enable c] /\
     snd (sram_remove d) = [clk_disable_unprepare c]) /\
  (clk_get env = inl 0 ->
     probe_trace (sram_probe P env pdev) = [clk_prepare_enable 0] /\
     snd (sram_remove d) = []).
Proof.
  intro H.
  destruct (probe_published P env pdev d H)
    as (res & virt & n & _ & _ & _ & _ & _ & Hr & _ & Hp & Hc & R & T).
  destruct (reserve_trace_shape P
              {| virt_base := virt; pool := {| chunks := []; room := n |};
                 clk := None |}
              res (kmalloc_ok env) (of_children pdev)) as [_ Hz].
  destruct (reserve_pool_growth P
              {| virt_base := virt; pool := {| chunks := []; room := n |};
                 clk := None |}
              res (kmalloc_ok env) (of_children pdev))
    as (_ & _ & _ & _ & _ & G).
  cbv zeta in G, Hz; cbn [pool] in G.
  rewrite (Hz Hr) in T; simpl in T.
  change (gen_pool_size {| chunks := []; room := n |}) with 0 in G.
  change (gen_pool_avail {| chunks := []; room := n |}) with 0 in G.
  assert (Ha : gen_pool_avail (pool d) = gen_pool_size (pool d))
    by (rewrite Hp; lia).
  assert (Hrm : sram_remove d =
                (0, match clk d with
                    | Some c => [clk_disable_unprepare c]
                    | None => []
                    end)).
  { unfold sram_remove; rewrite Ha, Z.ltb_irrefl; now destruct (clk d). }
  unfold held_clock in Hc.
  split; [exact R|]; split; [exact T|]; split; [exact Hc|].
  split; [exact Ha|]; split; [exact Hrm|]; split.
  - intros c Hd; rewrite Hrm, Hd, T; rewrite Hd in Hc.
    destruct (clk_get env) as [c0|e]; [|discriminate].
    destruct (Z.eqb_spec c0 0); [discriminate|].
    inversion Hc; subst; auto.
  - intros E; rewrite Hrm, T, Hc, E; simpl; auto.
Qed.

Lemma probe_then_remove_clock_witness :
  drvdata (sram_probe Sample.lp64 SampleProbe.services_ok SampleProbe.device)
  = Some SampleProbe.published /\
  probe_ret (sram_probe Sample.lp64 SampleProbe.services_ok
               SampleProbe.device) = 0 /\
  probe_trace (sram_probe Sample.lp64 SampleProbe.services_ok
                 SampleProbe.device) =
    match clk_get SampleProbe.services_ok with
    | inl c => [clk_prepare_enable c]
    | inr _ => []
    end /\
  clk SampleProbe.published =
    match clk_get SampleProbe.services_ok with
    | inl c => if c =? 0 then None else Some c
    | inr _ => None
    end /\
  gen_pool_avail (pool SampleProbe.published)
  = gen_pool_size (pool SampleProbe.published) /\
  sram_remove SampleProbe.published =
    (0, match clk SampleProbe.published with
        | Some c => [clk_disable_unprepare c]
        | None => []
        end) /\
  (forall c, clk SampleProbe.published = Some c ->
     c <> 0 /\
     probe_trace (sram_probe Sample.lp64 SampleProbe.services_ok
                    SampleProbe.device) = [clk_prepare_enable c] /\
     snd (sram_remove SampleProbe.published) = [clk_disable_unprepare c]) /\
  (clk_get SampleProbe.services_ok = inl 0 ->
     probe_trace (sram_probe Sample.lp64 SampleProbe.services_ok
                    SampleProbe.device) = [clk_prepare_enable 0] /\
     snd (sram_remove SampleProbe.published) = []).
Proof.
  assert (H1 : drvdata (sram_probe Sample.lp64 SampleProbe.services_ok
                          SampleProbe.device) = Some SampleProbe.published)
    by reflexivity.
  exact (conj H1
           (probe_then_remove_clock Sample.lp64 SampleProbe.services_ok
              SampleProbe.device _ H1)).
Defined.

(** X11: when every kernel service answers and the reserved ranges of the
    device are inside a region smaller than 2^31 bytes, not empty and
    without a common address, [sram_probe] returns 0 and publishes a device
    with the mapping it was given, with the clock [devm_clk_get] returned
    unless that was an error pointer or NULL, and with a pool whose
    capacity, all of it available, is the size of the region less the bytes
    of the reserved ranges. *)
Theorem probe_valid_device
    (P : platform) (env : services) (pdev : platform_device)
    (res : resource) (rs : list resource) (virt : Z) (n : nat) :
  kzalloc_ok env = true -> request_ok env = true ->
  kmalloc_ok env = true ->
  mem_resource pdev = Some res -> of_children pdev = map resolved rs ->
  ioremap_wc env = inl virt -> pool_create env = inl n ->
  (length rs < n)%nat ->
  wf_resource P res -> region_size res < 2 ^ 31 ->
  Forall (wf_resource P) rs -> Forall (inside res) rs ->
  Forall (fun c => res_start c <= res_end c) rs ->
  (forall a, (hits in_resource rs a <= 1)%nat) ->
  probe_ret (sram_probe P env pdev) = 0 /\
  exists d,
    drvdata (sram_probe P env pdev) = Some d /\
    virt_base d = virt /\
    clk d = match clk_get env with
            | inl c => if c =? 0 then None else Some c
            | inr _ => None
            end /\
    gen_pool_size (pool d) = region_size res - reserved_bytes rs /\
    gen_pool_avail (pool d) = region_size res - reserved_bytes rs.
Proof.
  intros Hz Hq Hk Hm Hch Hio Hpc Hroom Hres Hsmall Hw Hi Hne Hh.
  assert (Hs32 : region_size res < 2 ^ 32) by lia.
  set (sram := {| virt_base := virt; pool := {| chunks := []; room := n |};
                  clk := None |}).
  assert (Hr : out_ret (sram_reserve_regions P sram res true
                          (map resolved rs)) = 0)
    by (apply accepts_valid; assumption).
  destruct (accepted_capacity P sram res true rs Hres Hs32 Hw Hr)
    as [Cs Ca].
  cbv zeta in Cs, Ca; unfold sram in Cs at 2, Ca at 2; cbn [pool] in Cs, Ca.
  change (gen_pool_size {| chunks := []; room := n |}) with 0 in Cs.
  change (gen_pool_avail {| chunks := []; room := n |}) with 0 in Ca.
  unfold sram_probe; rewrite Hz, Hq, Hm, Hio, Hpc, Hk, Hch; cbn [negb].
  fold sram; rewrite Hr; cbn [negb Z.eqb].
  destruct (clk_get env); cbn [probe_ret drvdata]; (split; [reflexivity|]);
    eexists; (split; [reflexivity|]); cbn [virt_base pool clk];
    repeat split; lia.
Qed.

Lemma probe_valid_device_witness :
  kzalloc_ok SampleProbe.services_ok = true /\
  request_ok SampleProbe.services_ok = true /\
  kmalloc_ok SampleProbe.services_ok = true /\
  mem_resource SampleProbe.device = Some Sample.region /\
  of_children SampleProbe.device
  = map resolved [Sample.child 0x4000 0x1000] /\
  ioremap_wc SampleProbe.services_ok = inl 0xf0000000 /\
  pool_create SampleProbe.services_ok = inl 8%nat /\
  (length [Sample.child 0x4000 0x1000] < 8)%nat /\
  wf_resource Sample.ilp32 Sample.region /\
  region_size Sample.region < 2 ^ 31 /\
  Forall (wf_resource Sample.ilp32) [Sample.child 0x4000 0x1000] /\
  Forall (inside Sample.region) [Sample.child 0x4000 0x1000] /\
  Forall (fun c => res_start c <= res_end c) [Sample.child 0x4000 0x1000] /\
  (forall a,
     (hits in_resource [Sample.child 0x4000 0x1000] a <= 1)%nat) /\
  probe_ret (sram_probe Sample.ilp32 SampleProbe.services_ok
               SampleProbe.device) = 0 /\
  exists d,
    drvdata (sram_probe Sample.ilp32 SampleProbe.services_ok
               SampleProbe.device) = Some d /\
    virt_base d = 0xf0000000 /\
    clk d = match clk_get SampleProbe.services_ok with
            | inl c => if c =? 0 then None else Some c
            | inr _ => None
            end /\
    gen_pool_size (pool d) =
      region_size Sample.region
      - reserved_bytes [Sample.child 0x4000 0x1000] /\
    gen_pool_avail (pool d) =
      region_size Sample.region
      - reserved_bytes [Sample.child 0x4000 0x1000].
Proof.
  assert (H8 : (length [Sample.child 0x4000 0x1000] < 8)%nat)
    by (simpl; lia).
  assert (H9 : wf_resource Sample.ilp32 Sample.region) by by_eval.
  assert (H10 : region_size Sample.region < 2 ^ 31) by by_eval.
  assert (H11 : Forall (wf_resource Sample.ilp32)
                  [Sample.child 0x4000 0x1000])
    by (repeat constructor; by_eval).
  assert (H12 : Forall (inside Sample.region) [Sample.child 0x4000 0x1000])
    by (repeat constructor; by_eval).
  assert (H13 : Forall (fun c => res_start c <= res_end c)
                  [Sample.child 0x4000 0x1000])
    by (repeat constructor; by_eval).
  assert (H14 : forall a,
             (hits in_resource [Sample.child 0x4000 0x1000] a <= 1)%nat).
  { intro a; rewrite !hits_cons; unfold hits, in_resource; simpl.
    repeat match goal with
           | |- context [?x <=? ?y] => destruct (Z.leb_spec x y)
           end; simpl; lia. }
  exact (conj eq_refl (conj eq_refl (conj eq_refl (conj eq_refl
          (conj eq_refl (conj eq_refl (conj eq_refl
          (conj H8 (conj H9 (conj H10 (conj H11 (conj H12 (conj H13
          (conj H14
             (probe_valid_device Sample.ilp32 SampleProbe.services_ok
                SampleProbe.device Sample.region
                [Sample.child 0x4000 0x1000] 0xf0000000 8
                eq_refl eq_refl eq_refl eq_refl eq_refl eq_refl eq_refl
                H8 H9 H10 H11 H12 H13 H14))))))))))))))).
Defined.

(** ** Free spans are maximal *)

Section Maximal.

Variable P : platform.
Variable sram : sram_dev.
Variable res : resource.
Hypothesis res_wf : wf_resource P res.
Hypothesis res_small : region_size res < 2 ^ 32.

Local Abbreviation N := (region_size res).

(** When every block but the end marker takes at least one byte, the chunks
    of a scan that reaches its end do not touch one another. *)
Lemma scan_next_apart (l : list sram_reserve) (f f' : frame) :
  Forall (bounded N) l ->
  Forall (fun b => 0 < size b \/ start b = N) l ->
  0 <= cur_start f ->
  for_each (scan_body P sram res) l f = next f' ->
  exists new,
    chunks (fpool f') = chunks (fpool f) ++ new /\
    cur_start f <= cur_start f' <= Z.max (cur_start f) N /\
    Forall (chunk_within (res_start res + cur_start f)
                         (res_start res + cur_start f')) new /\
    StronglySorted chunk_apart new.
Proof.
  revert f; induction l as [|b l IH]; intros f Hb Hs Hc E.
  - simpl in E; inversion E; subst f'.
    exists []; rewrite app_nil_r; repeat split; try lia; constructor.
  - inversion Hb as [|? ? Hb1 Hbl]; inversion Hs as [|? ? Hs1 Hsl]; subst.
    pose proof Hb1 as (B1 & B2 & B3).
    cbn [for_each] in E.
    destruct (Z.lt_trichotomy (start b) (cur_start f)) as [H|[H|H]].
    + rewrite scan_body_lt in E by assumption; discriminate.
    + rewrite scan_body_eq, u32_small in E by lia.
      match type of E with
      | for_each _ _ ?g = _ =>
          destruct (IH g Hbl Hsl ltac:(simpl; lia) E) as (new & K & C & W & S)
      end.
      simpl in *; exists new; repeat split; try assumption; try lia.
      eapply Forall_impl; [|exact W].
      unfold chunk_within; intros k (? & ? & ?); lia.
    + rewrite scan_body_gt in E by assumption.
      destruct (room (fpool f)) as [|n]; [discriminate|].
      rewrite u32_small in E by lia.
      match type of E with
      | for_each _ _ ?g = _ =>
          destruct (IH g Hbl Hsl ltac:(simpl; lia) E) as (new & K & C & W & S)
      end.
      simpl in *.
      destruct (gap_chunk_small P sram res res_wf res_small b f Hb1
                  ltac:(lia)) as [Gp Gs].
      exists (gap_chunk P sram res f b :: new).
      rewrite <- app_assoc in K.
      repeat split; try assumption; try lia.
      * constructor.
        -- unfold chunk_within; lia.
        -- eapply Forall_impl; [|exact W].
           unfold chunk_within; intros k (? & ? & ?); lia.
      * constructor; [assumption|].
        eapply Forall_impl; [|exact W].
        unfold chunk_within, chunk_apart; intros k (? & ? & ?); lia.
Qed.

Lemma sorted_blocks_take_bytes (rs : list resource) :
  Forall (wf_resource P) rs -> Forall (inside res) rs ->
  Forall (fun c => res_start c <= res_end c) rs ->
  Forall (fun b => 0 < size b \/ start b = N) (sorted_blocks P res rs).
Proof.
  intros Hw Hi Hne.
  apply (Permutation_Forall (Permutation_sym (sorted_blocks_perm P res rs))).
  apply Forall_app; split.
  - apply Forall_map; rewrite Forall_forall in *; intros c Hc.
    rewrite block_of_small by auto.
    left; simpl; unfold region_size; specialize (Hne c Hc); lia.
  - constructor; [|constructor].
    right; now rewrite (marker_small P res res_wf res_small).
Qed.

End Maximal.

(** X12: for a region smaller than 2^32 bytes and reserved ranges none of
    which is empty, the chunks registered by a run that returns 0 on a
    fresh pool do not touch: each ends strictly before the next one starts,
    so that every free span is maximal. *)
Theorem free_spans_maximal
    (P : platform) (sram : sram_dev) (res : resource)
    (k : bool) (rs : list resource) :
  wf_resource P res -> region_size res < 2 ^ 32 ->
  Forall (wf_resource P) rs ->
  Forall (fun c => res_start c <= res_end c) rs ->
  chunks (pool sram) = [] ->
  out_ret (sram_reserve_regions P sram res k (map resolved rs)) = 0 ->
  StronglySorted chunk_apart
    (chunks (out_pool (sram_reserve_regions P sram res k (map resolved rs)))).
Proof.
  intros Hres Hsmall Hw Hne Hfresh Hr.
  destruct (accepted_next P sram res k rs Hr) as (_ & Hi & f' & E & Eo).
  destruct (scan_entry_fields P sram res rs) as (C0 & R0 & P0 & T0).
  assert (H0 : 0 <= cur_start (scan_entry P sram res rs)) by lia.
  destruct (scan_next_apart P sram res Hres Hsmall _ _ _
              (sorted_blocks_bounded P res Hres Hsmall rs Hw Hi)
              (sorted_blocks_take_bytes P res Hres Hsmall rs Hw Hi Hne)
              H0 E) as (new & K & _ & _ & S).
  rewrite Eo; simpl; rewrite K, P0, Hfresh; exact S.
Qed.

Lemma free_spans_maximal_witness :
  wf_resource Sample.lp64 Sample.region /\
  region_size Sample.region < 2 ^ 32 /\
  Forall (wf_resource Sample.lp64)
         [Sample.child 0 0x1000; Sample.child 0x1000 0x1000;
          Sample.child 0x8000 0x1000] /\
  Forall (fun c => res_start c <= res_end c)
         [Sample.child 0 0x1000; Sample.child 0x1000 0x1000;
          Sample.child 0x8000 0x1000] /\
  chunks (pool Sample.dev) = [] /\
  out_ret (sram_reserve_regions Sample.lp64 Sample.dev Sample.region true
             (map resolved [Sample.child 0 0x1000; Sample.child 0x1000 0x1000;
                            Sample.child 0x8000 0x1000])) = 0 /\
  StronglySorted chunk_apart
    (chunks (out_pool
       (sram_reserve_regions Sample.lp64 Sample.dev Sample.region true
          (map resolved [Sample.child 0 0x1000; Sample.child 0x1000 0x1000;
                         Sample.child 0x8000 0x1000])))).
Proof.
  assert (H1 : wf_resource Sample.lp64 Sample.region) by by_eval.
  assert (H2 : region_size Sample.region < 2 ^ 32) by by_eval.
  assert (H3 : Forall (wf_resource Sample.lp64)
                 [Sample.child 0 0x1000; Sample.child 0x1000 0x1000;
                  Sample.child 0x8000 0x1000])
    by (repeat constructor; by_eval).
  assert (H4 : Forall (fun c => res_start c <= res_end c)
                 [Sample.child 0 0x1000; Sample.child 0x1000 0x1000;
                  Sample.child 0x8000 0x1000])
    by (repeat constructor; by_eval).
  assert (H5 : chunks (pool Sample.dev) = []) by reflexivity.
  assert (H6 : out_ret (sram_reserve_regions Sample.lp64 Sample.dev
                          Sample.region true
                          (map resolved [Sample.child 0 0x1000;
                                         Sample.child 0x1000 0x1000;
                                         Sample.child 0x8000 0x1000])) = 0)
    by reflexivity.
  exact (conj H1 (conj H2 (conj H3 (conj H4 (conj H5 (conj H6
           (free_spans_maximal Sample.lp64 Sample.dev Sample.region true
              _ H1 H2 H3 H4 H5 H6))))))).
Defined.

(** ** Chunks are never empty *)

Section ChunkSizes.

Variable P : platform.
Variable sram : sram_dev.
Variable res : resource.

Lemma children_blocks_u32 (cs : list of_child) (f f' : frame) :
  Forall (fun b => 0 <= start b < 2 ^ 32) (blocks f) ->
  for_each (child_body P res) cs f = next f' ->
  Forall (fun b => 0 <= start b < 2 ^ 32) (blocks f').
Proof.
  revert f; induction cs as [|c cs IH]; intros f Hf E; simpl in E.
  - now inversion E; subst.
  - destruct (child_passes res c) eqn:Hc.
    + rewrite child_body_passes in E by assumption.
      apply IH in E; [exact E|]; simpl.
      apply Forall_app; split; [assumption|].
      constructor; [apply u32_range|constructor].
    + destruct (child_body_fails P res c f Hc) as (f1 & E1 & _).
      rewrite E1 in E; discriminate.
Qed.

Lemma scan_chunk_sizes (l : list sram_reserve) (f : frame) :
  Forall (fun b => 0 <= start b < 2 ^ 32) l ->
  0 <= cur_start f < 2 ^ 32 ->
  exists new,
    chunks (fpool (frame_of (for_each (scan_body P sram res) l f))) =
      chunks (fpool f) ++ new /\
    Forall (fun k => 0 < chunk_size k < 2 ^ 32) new.
Proof.
  revert f; induction l as [|b l IH]; intros f Hl Hc.
  - exists []; simpl; now rewrite app_nil_r.
  - inversion Hl as [|? ? Hb Hl']; subst; cbn [for_each].
    destruct (Z.lt_trichotomy (start b) (cur_start f)) as [H|[H|H]].
    + rewrite scan_body_lt by assumption.
      exists []; simpl; now rewrite app_nil_r.
    + rewrite scan_body_eq by assumption.
      destruct (IH (set_cur_start (u32 (start b + size b)) f) Hl')
        as (new & K & S); [simpl; apply u32_range|].
      exists new; split; [exact K|assumption].
    + rewrite scan_body_gt by assumption.
      destruct (room (fpool f)) as [|n].
      * exists []; simpl; now rewrite app_nil_r.
      * match goal with
        | |- context [for_each _ l ?g] =>
            destruct (IH g Hl') as (new & K & S);
              [simpl; apply u32_range|]
        end.
        exists (gap_chunk P sram res f b :: new).
        rewrite K; simpl; rewrite <- app_assoc; split; [reflexivity|].
        constructor; [|assumption].
        unfold gap_chunk, ulong; simpl; rewrite wrap_u32; lia.
Qed.

End ChunkSizes.

(** X13: whatever the children, the region and the platform, every chunk a
    run adds to the pool holds at least one byte and less than 2^32: an
    empty span is never registered, and neither is one of 4 GiB or more. *)
Theorem chunks_never_empty
    (P : platform) (sram : sram_dev) (res : resource)
    (k : bool) (cs : list of_child) :
  exists new,
    chunks (out_pool (sram_reserve_regions P sram res k cs)) =
      chunks (pool sram) ++ new /\
    Forall (fun c => 0 < chunk_size c < 2 ^ 32) new.
Proof.
  unfold sram_reserve_regions; destruct k; simpl.
  2:{ exists []; now rewrite app_nil_r. }
  unfold reserve_frame, collect.
  pose proof (children_pool P res cs (entry sram)) as Hpool.
  destruct (for_each (child_body P res) cs (entry sram)) as [f|f] eqn:E;
    simpl in Hpool.
  - assert (Hb : Forall (fun b => 0 <= start b < 2 ^ 32)
                        (blocks (prepare P res f))).
    { unfold prepare; simpl.
      apply (Permutation_Forall (Permutation_sym (list_sort_perm _ _))).
      apply Forall_app; split.
      - apply (children_blocks_u32 P res cs (entry sram) f);
          [constructor|exact E].
      - constructor; [apply u32_range|constructor]. }
    destruct (scan_chunk_sizes P sram res _ (prepare P res f) Hb)
      as (new & K & S); [simpl; lia|].
    exists new; unfold scan; rewrite K; split; [|assumption].
    now rewrite <- Hpool.
  - exists []; simpl; now rewrite Hpool, app_nil_r.
Qed.
